(** * update.py: the sticker catalogue updater

    A shallow embedding of [update.py] and the properties of its
    reconciliation, duplicate detection and classification logic.

    Conventions of the embedding.
    - A Python [str] is a [string], one character for each code point: the
      embedding covers the strings whose code points are below 256 (ASCII
      and Latin-1).  On these, [lower] and [strip] are those of Python: the
      capital letters are [A]-[Z] and the Latin-1 ones at 192-222 other than
      the multiplication sign, and white space includes the next-line and
      no-break-space characters.
    - The catalogue ([db], the parsed [data.json]) is a Python dict with
      insertion order: an association list from base name to entry.  An entry
      object is a record with the two required keys and the four optional
      ones of the persisted format.
    - A Python [set] of filenames is a [gset string]; the order in which the
      interpreter iterates over a set is not fixed by the language, so it is
      a parameter [iter] of the functions that loop over a set.
    - The program talks to an operator and to the file system: a computation
      is a function on a [world] (lines still to be typed, what happened so
      far, the [images/] directory, the parsed [data.json]) that returns a
      value or raises a Python exception. *)

From Stdlib Require Import Ascii String ZArith Sorted.
From stdpp Require Import gmap strings list fin_maps.

Open Scope string_scope.

(** ** Python string operations *)

Module Str.

(** [s[:i]] for [0 <= i]. *)
Fixpoint slice_to (i : nat) (s : string) : string :=
  match i, s with
  | S i', String c s' => String c (slice_to i' s')
  | _, _ => ""
  end.

(** [s[i:]] for [0 <= i]. *)
Fixpoint slice_from (i : nat) (s : string) : string :=
  match i, s with
  | S i', String _ s' => slice_from i' s'
  | _, _ => s
  end.

(** Index of the last occurrence of [c] in [s], if any. *)
Fixpoint rindex (c : ascii) (s : string) : option nat :=
  match s with
  | "" => None
  | String a s' =>
      match rindex c s' with
      | Some i => Some (S i)
      | None => if Ascii.eqb a c then Some 0 else None
      end
  end.

(** [s.rfind(c)]: the highest index of [c], or [-1]. *)
Definition rfind (c : ascii) (s : string) : Z :=
  match rindex c s with
  | Some i => Z.of_nat i
  | None => (-1)%Z
  end.

(** [key.startswith(name)]. *)
Definition startswith (key name : string) : bool := String.prefix name key.

(** [c.lower()] for a code point below 256: the letters [A]-[Z]
    (65-90) and the capital letters of Latin-1 (192-222, without the
    multiplication sign 215) have their lower-case form 32 places up; every
    other character is its own. *)
Definition lower_char (c : ascii) : ascii :=
  let n := nat_of_ascii c in
  if (((65 <=? n) && (n <=? 90))
      || ((192 <=? n) && (n <=? 222) && negb (n =? 215)))%nat
  then ascii_of_nat (n + 32) else c.

(** [s.lower()]. *)
Fixpoint lower (s : string) : string :=
  match s with
  | "" => ""
  | String c s' => String (lower_char c) (lower s')
  end.

(** [c.isspace()] for a code point below 256: tab, line feed, vertical
    tab, form feed, carriage return (9-13), the four separators 0x1c-0x1f
    and space (28-32), next line (0x85) and no-break space (0xa0). *)
Definition isspace (c : ascii) : bool :=
  let n := nat_of_ascii c in
  (((9 <=? n) && (n <=? 13)) || ((28 <=? n) && (n <=? 32))
   || (n =? 133) || (n =? 160))%nat.

Fixpoint lstrip (s : string) : string :=
  match s with
  | "" => ""
  | String c s' => if isspace c then lstrip s' else s
  end.

Fixpoint rstrip (s : string) : string :=
  match s with
  | "" => ""
  | String c s' =>
      match rstrip s' with
      | "" => if isspace c then "" else String c ""
      | r => String c r
      end
  end.

(** [s.strip()]. *)
Definition strip (s : string) : string := rstrip (lstrip s).

(** [x in xs] for a list of strings. *)
Definition mem (x : string) (xs : list string) : bool :=
  existsb (String.eqb x) xs.

(** The loop of [genericpath._splitext] that skips leading dots: is there
    a character other than the separator at an index in
    [filenameIndex, filenameIndex + n)? *)
Fixpoint has_stem (p : string) (filenameIndex n : nat) : bool :=
  match n with
  | O => false
  | S n' =>
      match String.get filenameIndex p with
      | Some c =>
          if Ascii.eqb c "." then has_stem p (S filenameIndex) n' else true
      | None => true
      end
  end.

(** [os.path.splitext(p)] of [posixpath]: the extension starts at the last
    dot after the last ["/"], unless only dots precede it in the file
    name. *)
Definition splitext (p : string) : string * string :=
  let sepIndex := rfind "/" p in
  let dotIndex := rfind "." p in
  if (sepIndex <? dotIndex)%Z
     && has_stem p (Z.to_nat (sepIndex + 1))
                 (Z.to_nat dotIndex - Z.to_nat (sepIndex + 1))
  then (slice_to (Z.to_nat dotIndex) p, slice_from (Z.to_nat dotIndex) p)
  else (p, "").

End Str.

(** ** Data model *)

(** One catalogue entry, the JSON object stored under a base name.  [exts]
    and [tags] are required keys, the other four are present only when
    non-empty. *)
Record entry := Entry {
  entry_tags : string;
  entry_exts : list string;
  entry_title : option string;
  entry_language : option string;
  entry_author : option string;
  entry_license : option string;
}.

(** The catalogue: a dict in insertion order. *)
Definition database := list (string * entry).

Module Db.

(** [name in db]. *)
Definition mem (name : string) (db : database) : bool :=
  existsb (fun kv => String.eqb name (fst kv)) db.

(** [db[name]]. *)
Fixpoint get (name : string) (db : database) : option entry :=
  match db with
  | [] => None
  | (key, obj) :: rest =>
      if String.eqb name key then Some obj else get name rest
  end.

(** [db[name]["exts"].append(ext)]: the entry object is shared with the
    dict, so the dict sees the longer list. *)
Fixpoint append_ext (name ext : string) (db : database) : database :=
  match db with
  | [] => []
  | (key, obj) :: rest =>
      if String.eqb name key
      then (key, Entry (entry_tags obj) (entry_exts obj ++ [ext])
                       (entry_title obj) (entry_language obj)
                       (entry_author obj) (entry_license obj)) :: rest
      else (key, obj) :: append_ext name ext rest
  end.

(** [db[name] = obj]: replaces the value of an existing key in place,
    appends a new key at the end. *)
Fixpoint set (name : string) (obj : entry) (db : database) : database :=
  match db with
  | [] => [(name, obj)]
  | (key, old) :: rest =>
      if String.eqb name key then (key, obj) :: rest
      else (key, old) :: set name obj rest
  end.

End Db.

(** "{}.{}".format(name, ext) *)
Definition filename (name ext : string) : string := name +:+ "." +:+ ext.

(** ** The operator, the console and the file system *)

(** The lines the program prints. *)
Inductive line :=
| FilesIdentical (image other_image : string)
| BothInDatabase
| Remove (image : string)
| BothNotInDatabase
| TagsRequired
| OnlyLowerCase
| ValidLicenses (allowed : list string)
| ValidLanguages (allowed : list string)
| Header (i n : nat) (image : string)
| NoExtension
| Done
| Ignore
| RemoveDuplicatesFirst
| NoNewImages (entries : nat)
| Wrote (new_image_count : nat).

(** The questions the program asks. *)
Inductive prompt :=
| AskNewType (exts : list string) (ext : string)
| AskTags | AskTitle | AskAuthor | AskLicense | AskLanguage
| AskDone
| AskStart (n : nat).

(** What an observer of a run sees, in order. *)
Inductive event :=
| Print (l : line)
| Ask (p : prompt) (prefill : string)
| Dump (db : database).

Inductive exn :=
| EOFError            (* input() at the end of the operator's lines *)
| IndexError          (* string index out of range *)
| FileNotFoundError   (* open() of a file that is not in images/ *)
| JSONDecodeError.    (* json.load() of a data.json that is not JSON *)

(** The state a run works on.  [data_json] is what [json.load] makes of the
    file [data.json], [None] when the file is there and is not JSON; a
    directory without the file is not among the worlds of the embedding. *)
Record world := World {
  stdin : list string;
  trace : list event;
  images_dir : gmap string string;
  data_json : option database;
}.

(** The result of a computation: a value, a Python exception, or the bound
    of the embedding's [while True] loop reached. *)
Inductive result (A : Type) :=
| Ok (a : A)
| Raise (e : exn)
| OutOfFuel.
Arguments Ok {A} a.
Arguments Raise {A} e.
Arguments OutOfFuel {A}.

Definition M (A : Type) : Type := world -> result A * world.

Definition ret {A} (a : A) : M A := fun w => (Ok a, w).

Definition raise {A} (e : exn) : M A := fun w => (Raise e, w).

Definition bind {A B} (m : M A) (k : A -> M B) : M B :=
  fun w =>
    match m w with
    | (Ok a, w') => k a w'
    | (Raise e, w') => (Raise e, w')
    | (OutOfFuel, w') => (OutOfFuel, w')
    end.

Declare Scope py_scope.
Delimit Scope py_scope with py.
Notation "x <- m ;; k" := (bind m (fun x => k))
  (at level 100, m at next level, right associativity) : py_scope.
Notation "m ;; k" := (bind m (fun _ => k))
  (at level 100, right associativity) : py_scope.
Open Scope py_scope.

Definition emit (e : event) : M unit :=
  fun w => (Ok tt, World (stdin w) (trace w ++ [e]) (images_dir w) (data_json w)).

(** [print(l)] *)
Definition print (l : line) : M unit := emit (Print l).

(** [input(p)] and [rlinput(p, prefill)]: show the question (with an editable
    prefill) and read the operator's next line. *)
Definition rlinput (p : prompt) (prefill : string) : M string :=
  fun w =>
    match stdin w with
    | [] => (Raise EOFError,
             World [] (trace w ++ [Ask p prefill]) (images_dir w) (data_json w))
    | value :: rest =>
        (Ok value,
         World rest (trace w ++ [Ask p prefill]) (images_dir w) (data_json w))
    end.

Definition input (p : prompt) : M string := rlinput p "".

(** A computation that needs no world. *)
Definition lift {A} (r : result A) : M A := fun w => (r, w).

(** ** The program *)

(** subset of https://spdx.org/licenses/ *)
Definition valid_licenses : list string := [""; "CC0-1.0"].
Definition valid_languages : list string :=
  [""; "dutch"; "english"; "french"; "german"].

(** The [for key in db] loop of [get_defaults_entry]. *)
Fixpoint get_defaults_entry_loop (name : string) (items : database)
  : result (option entry) :=
  match items with
  | [] => Ok None
  | (key, obj) :: rest =>
      (* match entry with different file extensions *)
      if Str.startswith key name then
        match String.get (String.length name) key with
        | None => Raise IndexError
        | Some c =>
            if Ascii.eqb c "." then Ok (Some obj)
            else get_defaults_entry_loop name rest
        end
      else get_defaults_entry_loop name rest
  end.

Definition get_defaults_entry (db : database) (image : string)
  : result (option entry) :=
  let '(name, ext) := Str.splitext image in
  get_defaults_entry_loop name db.

(** [default.get(key, "")] for the object [get_defaults_entry] returned,
    [None] being the empty dict. *)
Definition default_get (field : entry -> option string)
    (default : option entry) : string :=
  match default with
  | Some obj => match field obj with Some v => v | None => "" end
  | None => ""
  end.

Definition is_valid_author (author : string) : M bool := ret true.

Definition is_valid_title (author : string) : M bool := ret true.

Definition is_valid_tags (tags : string) : M bool :=
  if (String.length tags =? 0)%nat then
    print TagsRequired ;; ret false
  else if negb (String.eqb (Str.lower tags) tags) then
    print OnlyLowerCase ;; ret false
  else ret true.

Definition is_valid_license (license : string) : M bool :=
  if negb (Str.mem license valid_licenses) then
    print (ValidLicenses valid_licenses) ;; ret false
  else ret true.

Definition is_valid_language (language : string) : M bool :=
  if negb (Str.mem language valid_languages) then
    print (ValidLanguages valid_languages) ;; ret false
  else ret true.

(** [lambda v: v in ["", "Y", "n"]] *)
Definition is_yes_no (v : string) : M bool := ret (Str.mem v [""; "Y"; "n"]).

(** The number of lines the operator has still to type: a bound on the
    number of times a loop that reads a line in each round can run. *)
Definition lines_left : M nat := fun w => (Ok (List.length (stdin w)), w).

Definition out_of_fuel {A} : M A := fun w => (OutOfFuel, w).

(** [while not is_valid(value): value = rlinput(prompt, value)] *)
Fixpoint get_value_loop (fuel : nat) (p : prompt) (is_valid : string -> M bool)
    (value : string) : M string :=
  ok <- is_valid value ;;
  if ok then ret (Str.strip value)
  else
    value' <- rlinput p value ;;
    match fuel with
    | O => out_of_fuel
    | S fuel' => get_value_loop fuel' p is_valid value'
    end.

Definition get_value (p : prompt) (is_valid : string -> M bool)
    (prefill : string) : M string :=
  value <- rlinput p prefill ;;
  fuel <- lines_left ;;
  get_value_loop fuel p is_valid value.

Definition split_ext (image : string) : string * string :=
  let i := Str.rfind "." image in
  if (i =? -1)%Z then (image, "")
  else (Str.slice_to (Z.to_nat i) image, Str.slice_from (Z.to_nat (i + 1)) image).

(** The five fields the operator enters for a new entry. *)
Record fields := Fields {
  f_tags : string;
  f_title : string;
  f_author : string;
  f_license : string;
  f_language : string;
}.

(** The [while True] loop of [add_image]: ask the five fields, with the
    previous values as prefill, until the operator answers "Done?" with
    yes. *)
Fixpoint ask_fields (fuel : nat) (v : fields) : M fields :=
  tags <- get_value AskTags is_valid_tags (f_tags v) ;;
  title <- get_value AskTitle is_valid_title (f_title v) ;;
  author <- get_value AskAuthor is_valid_author (f_author v) ;;
  license <- get_value AskLicense is_valid_license (f_license v) ;;
  language <- get_value AskLanguage is_valid_language (f_language v) ;;
  answer <- get_value AskDone is_yes_no "" ;;
  if String.eqb answer "" || String.eqb answer "Y" then
    ret (Fields tags title author license language)
  else
    match fuel with
    | O => out_of_fuel
    | S fuel' => ask_fields fuel' (Fields tags title author license language)
    end.

(** [obj["key"] = value] under [if len(value) > 0]. *)
Definition optional (value : string) : option string :=
  if (0 <? String.length value)%nat then Some value else None.

(** [add_image(i, n, db, image)]: the number of entries added, and the
    catalogue as the call leaves it. *)
Definition add_image (i n : nat) (db : database) (image : string)
  : M (nat * database) :=
  print (Header i n image) ;;
  let '(name, ext) := split_ext image in
  if (String.length ext =? 0)%nat then
    print NoExtension ;; ret (0, db)
  else
  (* image name exists *)
  match Db.get name db with
  | Some obj =>
      answer <- get_value (AskNewType (entry_exts obj) ext) is_yes_no "" ;;
      if String.eqb answer "" || String.eqb answer "Y" then
        let db := Db.append_ext name ext db in
        print Done ;; ret (1, db)
      else
        print Ignore ;; ret (0, db)
  | None =>
      default <- lift (get_defaults_entry db image) ;;
      let tags := default_get (fun o => Some (entry_tags o)) default in
      let title := default_get entry_title default in
      let author := default_get entry_author default in
      let license := default_get entry_license default in
      let language := default_get entry_language default in
      fuel <- lines_left ;;
      v <- ask_fields fuel (Fields tags title author license language) ;;
      let obj := Entry (f_tags v) [ext]
                       (optional (f_title v)) (optional (f_language v))
                       (optional (f_author v)) (optional (f_license v)) in
      let db := Db.set name obj db in
      print Done ;; ret (1, db)
  end.

(** [get_database()]: [json.load] of [data.json]. *)
Definition get_database : M database :=
  fun w =>
    match data_json w with
    | Some db => (Ok db, w)
    | None => (Raise JSONDecodeError, w)
    end.

(** [get_image_set()]: the names in [images/]. *)
Definition get_image_set : M (gset string) :=
  fun w => (Ok (dom (images_dir w)), w).

Definition get_db_set (db : database) : gset string :=
  foldl (fun images '(name, obj) =>
           foldl (fun images ext => images ∪ {[ filename name ext ]})
                 images (entry_exts obj))
        ∅ db.

(** [new_images = images - db_images] *)
Definition new_images (db : database) (images : gset string) : gset string :=
  images ∖ get_db_set db.

(** The order in which [json.dump(..., sort_keys=True)] writes the keys. *)
Fixpoint insert_sorted (kv : string * entry) (db : database) : database :=
  match db with
  | [] => [kv]
  | kv' :: rest =>
      if String.leb (fst kv) (fst kv') then kv :: db
      else kv' :: insert_sorted kv rest
  end.

Definition sort_keys (db : database) : database :=
  foldr insert_sorted [] db.

(** [json.dump(db, outfile, indent="  ", sort_keys=True)] into a freshly
    opened [data.json]. *)
Definition json_dump (db : database) : M unit :=
  fun w =>
    (Ok tt,
     World (stdin w) (trace w ++ [Dump db]) (images_dir w) (Some (sort_keys db))).

(** [hash_file("images/{}".format(image))] for a digest function [sha1]. *)
Definition hash_file (sha1 : string -> string) (image : string) : M string :=
  fun w =>
    match images_dir w !! image with
    | Some content => (Ok (sha1 content), w)
    | None => (Raise FileNotFoundError, w)
    end.

Section Interpreter.

(** The order in which a [for] loop visits a set, and the SHA-1 digest. *)
Variable iter : gset string -> list string.
Variable sha1 : string -> string.

(** The body of the loop of [check_duplicate_images]; [hashes] is the
    dict of that name, which the loop reads and never writes. *)
Fixpoint check_loop (db_images : gset string) (hashes : gmap string string)
    (duplicates_found : bool) (images : list string) : M bool :=
  match images with
  | [] => ret duplicates_found
  | image :: rest =>
      file_hash <- hash_file sha1 image ;;
      match hashes !! file_hash with
      | Some other_image =>
          print (FilesIdentical image other_image) ;;
          (if bool_decide (image ∈ db_images) then
             if bool_decide (other_image ∈ db_images)
             then print BothInDatabase
             else print (Remove other_image)
           else
             if bool_decide (other_image ∈ db_images)
             then print (Remove image)
             else print BothNotInDatabase) ;;
          check_loop db_images hashes true rest
      | None => check_loop db_images hashes duplicates_found rest
      end
  end.

Definition check_duplicate_images (db_images images_set : gset string)
  : M bool :=
  check_loop db_images ∅ false (iter images_set).

(** The duplicate detector as section 4.2 of the specification words it:
    "the first time a hash is seen, record (hash -> filename); on a second
    occurrence of a hash, emit a report pairing the new filename with the
    previously recorded one".  It differs from [check_loop] in the last
    case only. *)
Fixpoint findDuplicates_loop (db_images : gset string) (hashes : gmap string string)
    (duplicates_found : bool) (images : list string) : M bool :=
  match images with
  | [] => ret duplicates_found
  | image :: rest =>
      file_hash <- hash_file sha1 image ;;
      match hashes !! file_hash with
      | Some other_image =>
          print (FilesIdentical image other_image) ;;
          (if bool_decide (image ∈ db_images) then
             if bool_decide (other_image ∈ db_images)
             then print BothInDatabase
             else print (Remove other_image)
           else
             if bool_decide (other_image ∈ db_images)
             then print (Remove image)
             else print BothNotInDatabase) ;;
          findDuplicates_loop db_images hashes true rest
      | None =>
          findDuplicates_loop db_images (<[file_hash := image]> hashes)
                              duplicates_found rest
      end
  end.

Definition findDuplicates (db_images images_set : gset string) : M bool :=
  findDuplicates_loop db_images ∅ false (iter images_set).

(** [for i, image in enumerate(new_images):
       new_image_count += add_image(i + 1, len(new_images), db, image)] *)
Fixpoint add_images (n : nat) (db : database) (i new_image_count : nat)
    (images : list string) : M (nat * database) :=
  match images with
  | [] => ret (new_image_count, db)
  | image :: rest =>
      r <- add_image (i + 1) n db image ;;
      let '(added, db) := r in
      add_images n db (S i) (new_image_count + added) rest
  end.

(** [main], for any duplicate check. *)
Definition main_with (check : gset string -> gset string -> M bool)
  : M unit :=
  db <- get_database ;;
  images <- get_image_set ;;
  let db_images := get_db_set db in
  let new_images := new_images db images in
  duplicates <- check db_images images ;;
  if duplicates then
    print RemoveDuplicatesFirst
  else if (size new_images =? 0)%nat then
    print (NoNewImages (size db_images))
  else
    answer <- input (AskStart (size new_images)) ;;
    if String.eqb answer "n" then ret tt
    else
      r <- add_images (size new_images) db 0 0 (iter new_images) ;;
      let '(new_image_count, db) := r in
      (* write anyway, this will format manual edits to data.json *)
      json_dump db ;;
      print (Wrote new_image_count).

Definition main : M unit := main_with check_duplicate_images.

End Interpreter.

(** ** Sample runs *)

Definition world0 (lines : list string) (files : gmap string string)
    (db : option database) : world :=
  World lines [] files db.

(** An entry with tags and extensions only. *)
Definition plain (tags : string) (exts : list string) : entry :=
  Entry tags exts None None None None.

Definition photo_db : database := [("photo", plain "x" ["jpg"])].

(** Three files, two of them byte-identical. *)
Definition abc_dir : gmap string string :=
  {[ "a.png" := "same bytes"; "b.png" := "same bytes"; "c.png" := "other" ]}.

(** A digest that is its own preimage: no two contents collide. *)
Definition plain_digest (content : string) : string := content.

(** A run that starts in [images/] with the three files and an empty
    catalogue. *)
Definition abc_world : world := world0 [] abc_dir (Some []).


(** The catalogue has [photo.jpg]; [images/] holds [photo.png] too, and the
    operator agrees to start and to add the new type. *)
Definition photo_png_world : world :=
  world0 [""; ""]
         {[ "photo.jpg" := "jpeg bytes"; "photo.png" := "png bytes" ]}
         (Some photo_db).

(** An empty catalogue, two new files, and an operator who tags each of
    them [t] and accepts every other prefill. *)
Definition two_new_world : world :=
  world0 [""; "t"; ""; ""; ""; ""; ""; "t"; ""; ""; ""; ""; ""]
         {[ "a.png" := "first"; "b.png" := "second" ]}
         (Some []).



(** The lines of the witness of [get_value]: a word with the capital E
    acute (code point 201), and the word [abc] between a no-break space
    (160) and a next-line character (133). *)
Definition capital_word : string := String "201" "cu".
Definition padded_word : string := String "160" ("abc" ++ String "133" "").

(** A set visited in the reverse of the order of [elements]. *)
Definition backwards (X : gset string) : list string := reverse (elements X).

(** The world after one more line is printed. *)
Definition printed (l : line) (w : world) : world :=
  World (stdin w) (trace w ++ [Print l]) (images_dir w) (data_json w).

(** ** Notions used in the statements *)

(** A computation [m] respects a relation [R] between the world before and
    the world after, whatever its outcome. *)
Definition preserves {A} (R : relation world) (m : M A) : Prop :=
  forall w r w', m w = (r, w') -> R w w'.

(** The relation "the observation [f] of the world is unchanged". *)
Definition keeps {X} (f : world -> X) : relation world :=
  fun w w' => f w' = f w.

(** An observation [f] of the world is blind to the events outside [P] when
    appending such an event to the trace, and consuming input, do not change
    it.  The computations of the program other than [json_dump] only append
    events and consume input, so they keep every observation that is blind
    to what they print. *)
Definition blind {X} (P : event -> bool) (f : world -> X) : Prop :=
  forall w lines e,
    P e = false ->
    f (World lines (trace w ++ [e]) (images_dir w) (data_json w)) = f w.

(** The header of each classified image and each write of [data.json]. *)
Definition milestone (e : event) : bool :=
  match e with
  | Print (Header _ _ _) => true
  | Dump _ => true
  | _ => false
  end.

Definition milestones (w : world) : list event :=
  List.filter milestone (trace w).

Definition nothing (e : event) : bool := false.

(** The lines other than the header of an image. *)
Definition plain_line (l : line) : Prop :=
  match l with Header _ _ _ => False | _ => True end.

(** The headers [add_images n db i _ images] prints, in order. *)
Fixpoint headers_from (n i : nat) (images : list string) : list event :=
  match images with
  | [] => []
  | image :: rest => Print (Header (i + 1) n image) :: headers_from n (S i) rest
  end.

(** No extension appears twice within an entry's extension list. *)
Definition distinct_exts (db : database) : Prop :=
  Forall (fun kv => NoDup (entry_exts (snd kv))) db.

(** An extension as [split_ext] produces them: not empty, no separator. *)
Definition plain_ext (ext : string) : Prop :=
  ext <> "" /\ Str.rindex "." ext = None.

Definition plain_exts (db : database) : Prop :=
  Forall (fun kv => Forall plain_ext (entry_exts (snd kv))) db.

(** Some entry of the catalogue has the base name and the extension of
    [image]. *)
Definition represented (db : database) (image : string) : Prop :=
  exists obj, In (fst (split_ext image), obj) db
              /\ In (snd (split_ext image)) (entry_exts obj).

(** A validator answers, and reads nothing. *)
Definition tidy (is_valid : string -> M bool) : Prop :=
  forall value w, exists ok w',
    is_valid value w = (Ok ok, w') /\ stdin w' = stdin w.

(** What one call of [add_image] does to the catalogue: nothing, or it
    appends the extension of the image to the entry of its base name, or it
    stores a new entry with that extension alone. *)
Inductive add_step (image : string) (db : database) : nat -> database -> Prop :=
| add_step_skip : add_step image db 0 db
| add_step_append name ext obj :
    split_ext image = (name, ext) ->
    ext <> "" ->
    Db.get name db = Some obj ->
    add_step image db 1 (Db.append_ext name ext db)
| add_step_new name ext obj :
    split_ext image = (name, ext) ->
    ext <> "" ->
    Db.get name db = None ->
    entry_exts obj = [ext] ->
    add_step image db 1 (Db.set name obj db).

(** Every entry has distinct extensions, and each of its files is in [S]. *)
Definition covered (S : gset string) (db : database) : Prop :=
  Forall (fun kv =>
            NoDup (entry_exts (snd kv))
            /\ forall ext, In ext (entry_exts (snd kv)) ->
                           filename (fst kv) ext ∈ S)
         db.

(** Every character of [s] is the extension separator. *)
Fixpoint only_dots (s : string) : bool :=
  match s with
  | "" => true
  | String c s' => Ascii.eqb c "." && only_dots s'
  end.

(** The stem [name] is a key of [db], and no key before it is the stem or
    starts with the stem and the separator. *)
Definition stem_first (name : string) (db : database) : Prop :=
  exists before obj after,
    db = (before ++ (name, obj) :: after)%list
    /\ Forall (fun kv => fst kv <> name
                         /\ Str.startswith (fst kv) (name +:+ ".") = false)
              before.

(** What the validators compute. *)
Definition valid_tags (tags : string) : bool :=
  negb (String.length tags =? 0)%nat && String.eqb (Str.lower tags) tags.

Definition valid_license (license : string) : bool :=
  Str.mem license valid_licenses.

Definition valid_language (language : string) : bool :=
  Str.mem language valid_languages.

Definition yes_no (v : string) : bool := Str.mem v [""; "Y"; "n"].

Definition anything (v : string) : bool := true.

(** The world after the lines [ls] are printed. *)
Definition told (ls : list line) (w : world) : world :=
  World (stdin w) (trace w ++ map Print ls) (images_dir w) (data_json w).

(** The validator [is_valid] answers [valid value]; it may print, and does
    nothing else. *)
Definition decides (is_valid : string -> M bool) (valid : string -> bool)
  : Prop :=
  forall value w, exists ls, is_valid value w = (Ok (valid value), told ls w).

Definition is_ask (e : event) : bool :=
  match e with Ask _ _ => true | _ => false end.

(** The questions put to the operator so far, with their prefills. *)
Definition questions (w : world) : list event := List.filter is_ask (trace w).

(** The entry [obj] with one more extension. *)
Definition with_ext (ext : string) (obj : entry) : entry :=
  Entry (entry_tags obj) (entry_exts obj ++ [ext]) (entry_title obj)
        (entry_language obj) (entry_author obj) (entry_license obj).

(** The computation [m] raises no exception outside [E]. *)
Definition raises_only {A} (E : exn -> Prop) (m : M A) : Prop :=
  forall w e w', m w = (Raise e, w') -> E e.

(** The operator's lines ran out. *)
Definition eof (e : exn) : Prop := e = EOFError.

(** The world in which [main] enters the loop over the new images: the
    operator has answered the question whether to start. *)
Definition started (n : nat) (rest : list string) (w : world) : world :=
  World rest (trace w ++ [Ask (AskStart n) ""]) (images_dir w) (data_json w).

(** The world after [main] has written the catalogue [d] and reported
    [count] additions. *)
Definition written (d : database) (count : nat) (w : world) : world :=
  World (stdin w) (trace w ++ [Dump d; Print (Wrote count)]) (images_dir w)
        (Some (sort_keys d)).

(** The order of the keys in the file [json.dump] writes. *)
Definition key_le (a b : string * entry) : Prop :=
  String.leb (fst a) (fst b) = true.

(** * Properties *)

(** ** Reasoning about computations *)

Lemma bind_ok {A B} (m : M A) (k : A -> M B) w b w' :
  bind m k w = (Ok b, w') ->
  exists a w1, m w = (Ok a, w1) /\ k a w1 = (Ok b, w').
Proof.
  unfold bind. destruct (m w) as [[a | e |] w1]; intros H; try discriminate.
  exists a, w1. auto.
Qed.

Lemma bind_cases {A B} (m : M A) (k : A -> M B) w r w' :
  bind m k w = (r, w') ->
  (exists a w1, m w = (Ok a, w1) /\ k a w1 = (r, w'))
  \/ (exists e, m w = (Raise e, w') /\ r = Raise e)
  \/ (m w = (OutOfFuel, w') /\ r = OutOfFuel).
Proof.
  unfold bind. destruct (m w) as [[a | e |] w1]; intros H.
  - left. eauto.
  - right. left. inversion H; subst. eauto.
  - right. right. inversion H; subst. eauto.
Qed.

Global Instance keeps_preorder {X} (f : world -> X) : PreOrder (keeps f).
Proof.
  split.
  - intros w. reflexivity.
  - intros w1 w2 w3 H12 H23. unfold keeps in *. congruence.
Qed.

Section Preserves.

Context (R : relation world) `{!PreOrder R}.

Lemma preserves_ret {A} (a : A) : preserves R (ret a).
Proof. intros w r w' H. inversion H; subst. reflexivity. Qed.

Lemma preserves_raise {A} (e : exn) : preserves R (@raise A e).
Proof. intros w r w' H. inversion H; subst. reflexivity. Qed.

Lemma preserves_lift {A} (x : result A) : preserves R (lift x).
Proof. intros w r w' H. inversion H; subst. reflexivity. Qed.

Lemma preserves_out_of_fuel {A} : preserves R (@out_of_fuel A).
Proof. intros w r w' H. inversion H; subst. reflexivity. Qed.

Lemma preserves_lines_left : preserves R lines_left.
Proof. intros w r w' H. inversion H; subst. reflexivity. Qed.

Lemma preserves_bind {A B} (m : M A) (k : A -> M B) :
  preserves R m -> (forall a, preserves R (k a)) -> preserves R (bind m k).
Proof.
  intros Hm Hk w r w' H.
  destruct (bind_cases _ _ _ _ _ H) as [(a & w1 & H1 & H2) | [(e & H1 & _) | [H1 _]]].
  - transitivity w1; [eapply Hm | eapply Hk]; eauto.
  - eapply Hm; eauto.
  - eapply Hm; eauto.
Qed.

Lemma preserves_get_database : preserves R get_database.
Proof.
  intros w r w' H. unfold get_database in H.
  destruct (data_json w); inversion H; subst; reflexivity.
Qed.

Lemma preserves_get_image_set : preserves R get_image_set.
Proof. intros w r w' H. inversion H; subst. reflexivity. Qed.

Lemma preserves_hash_file sha1 image : preserves R (hash_file sha1 image).
Proof.
  intros w r w' H. unfold hash_file in H.
  destruct (images_dir w !! image); inversion H; subst; reflexivity.
Qed.

End Preserves.


Lemma blind_milestones : blind milestone milestones.
Proof.
  intros w lines e He. unfold milestones. simpl.
  rewrite List.filter_app. simpl. rewrite He. apply app_nil_r.
Qed.

Lemma blind_data_json : blind nothing data_json.
Proof. intros w lines e _. reflexivity. Qed.

Lemma blind_images_dir : blind nothing images_dir.
Proof. intros w lines e _. reflexivity. Qed.

(** *** Computations that only talk *)

Section Quiet.

Context {X : Type} (P : event -> bool) (f : world -> X).
Hypothesis f_blind : blind P f.
Hypothesis P_ask : forall p s, P (Ask p s) = false.
Hypothesis P_line : forall l, plain_line l -> P (Print l) = false.

Lemma quiet_emit e : P e = false -> preserves (keeps f) (emit e).
Proof.
  intros He w r w' H. unfold emit in H. inversion H; subst.
  apply f_blind, He.
Qed.

Lemma quiet_print l : plain_line l -> preserves (keeps f) (print l).
Proof. intros Hl. apply quiet_emit, P_line, Hl. Qed.

Lemma quiet_rlinput p prefill : preserves (keeps f) (rlinput p prefill).
Proof.
  intros w r w' H. unfold rlinput in H.
  destruct (stdin w); inversion H; subst; apply f_blind, P_ask.
Qed.

Lemma quiet_input p : preserves (keeps f) (input p).
Proof. apply quiet_rlinput. Qed.

Ltac quiet :=
  repeat first
    [ apply preserves_ret; apply _
    | apply preserves_raise; apply _
    | apply preserves_lift; apply _
    | apply preserves_out_of_fuel; apply _
    | apply preserves_lines_left; apply _
    | apply quiet_rlinput
    | apply quiet_print; exact I
    | apply preserves_hash_file; apply _
    | apply preserves_bind; [apply _ | | intros ?]
    | match goal with
      | |- preserves _ (if ?b then _ else _) => destruct b
      | |- preserves _ (match ?x with Some _ => _ | None => _ end) =>
          destruct x
      end ].

Lemma quiet_is_valid_tags x : preserves (keeps f) (is_valid_tags x).
Proof. unfold is_valid_tags. quiet. Qed.

Lemma quiet_is_valid_title x : preserves (keeps f) (is_valid_title x).
Proof. unfold is_valid_title. quiet. Qed.

Lemma quiet_is_valid_author x : preserves (keeps f) (is_valid_author x).
Proof. unfold is_valid_author. quiet. Qed.

Lemma quiet_is_valid_license x : preserves (keeps f) (is_valid_license x).
Proof. unfold is_valid_license. quiet. Qed.

Lemma quiet_is_valid_language x : preserves (keeps f) (is_valid_language x).
Proof. unfold is_valid_language. quiet. Qed.

Lemma quiet_is_yes_no x : preserves (keeps f) (is_yes_no x).
Proof. unfold is_yes_no. quiet. Qed.

Lemma quiet_get_value_loop fuel p is_valid :
  (forall x, preserves (keeps f) (is_valid x)) ->
  forall value, preserves (keeps f) (get_value_loop fuel p is_valid value).
Proof.
  intros Hv. induction fuel as [| fuel IH]; intros value; simpl.
  - apply preserves_bind; [apply _ | apply Hv | intros ok]. quiet.
  - apply preserves_bind; [apply _ | apply Hv | intros ok]. quiet.
    apply IH.
Qed.

Lemma quiet_get_value p is_valid prefill :
  (forall x, preserves (keeps f) (is_valid x)) ->
  preserves (keeps f) (get_value p is_valid prefill).
Proof.
  intros Hv. unfold get_value. quiet. apply quiet_get_value_loop, Hv.
Qed.

Lemma quiet_ask_fields fuel : forall v, preserves (keeps f) (ask_fields fuel v).
Proof.
  induction fuel as [| fuel IH]; intros v; simpl.
  - repeat (apply preserves_bind;
            [apply _
            | apply quiet_get_value;
              auto using quiet_is_valid_tags, quiet_is_valid_title,
                quiet_is_valid_author, quiet_is_valid_license,
                quiet_is_valid_language, quiet_is_yes_no
            | intros ?]).
    quiet.
  - repeat (apply preserves_bind;
            [apply _
            | apply quiet_get_value;
              auto using quiet_is_valid_tags, quiet_is_valid_title,
                quiet_is_valid_author, quiet_is_valid_license,
                quiet_is_valid_language, quiet_is_yes_no
            | intros ?]).
    quiet. apply IH.
Qed.

(** After its header, [add_image] only talks. *)
Lemma classify_after_header i n db image w r w' :
  add_image i n db image w = (r, w') ->
  f w' = f (printed (Header i n image) w).
Proof.
  intros H. unfold add_image in H.
  apply bind_cases in H.
  destruct H as [(a & w1 & H1 & H2) | [(e & H1 & _) | [H1 _]]];
    try discriminate H1.
  inversion H1; subst a w1; clear H1. cbv beta in H2.
  revert H2.
  match goal with
  | |- ?m _ = _ -> _ => assert (Hq : preserves (keeps f) m)
  end.
  { destruct (split_ext image) as [name ext].
    destruct (String.length ext =? 0)%nat; [quiet |].
    destruct (Db.get name db) as [obj |].
    - apply preserves_bind;
        [apply _ | apply quiet_get_value, quiet_is_yes_no | intros answer].
      quiet.
    - apply preserves_bind;
        [apply _ | apply preserves_lift; apply _ | intros d].
      apply preserves_bind;
        [apply _ | apply preserves_lines_left; apply _ | intros fuel].
      apply preserves_bind; [apply _ | apply quiet_ask_fields | intros v].
      quiet. }
  intros H2. exact (Hq _ _ _ H2).
Qed.

Lemma quiet_check_loop sha1 db_images hashes images :
  forall found, preserves (keeps f) (check_loop sha1 db_images hashes found images).
Proof.
  induction images as [| image rest IH]; intros found; simpl.
  - quiet.
  - apply preserves_bind; [apply _ | apply preserves_hash_file; apply _ | intros h].
    destruct (hashes !! h).
    + quiet; apply IH.
    + apply IH.
Qed.

Lemma quiet_check_duplicate_images iter sha1 db_images images_set :
  preserves (keeps f) (check_duplicate_images iter sha1 db_images images_set).
Proof. apply quiet_check_loop. Qed.

End Quiet.

(** ** The classifier at sample inputs *)

(** C7: with the catalogue [{"photo": {"exts": ["jpg"], "tags": "x"}}] and
    the new file [photo.png], the answer "yes" (the empty line, or [Y])
    appends the extension to the entry and [add_image] returns 1; the answer
    [n] leaves the catalogue as it is and [add_image] returns 0.  This holds
    for every numbering [i], [n] and whatever the operator types next. *)
Theorem add_image_new_extension (i n : nat) (lines : list string)
    (tr : list event) (dir : gmap string string) (dj : option database) :
  let asked :=
    (tr ++ [Print (Header i n "photo.png")]
        ++ [Ask (AskNewType ["jpg"] "png") ""])%list in
  add_image i n photo_db "photo.png" (World ("" :: lines) tr dir dj)
  = (Ok (1, [("photo", plain "x" ["jpg"; "png"])]),
     World lines (asked ++ [Print Done]) dir dj)
  /\ add_image i n photo_db "photo.png" (World ("Y" :: lines) tr dir dj)
     = (Ok (1, [("photo", plain "x" ["jpg"; "png"])]),
        World lines (asked ++ [Print Done]) dir dj)
  /\ add_image i n photo_db "photo.png" (World ("n" :: lines) tr dir dj)
     = (Ok (0, photo_db), World lines (asked ++ [Print Ignore]) dir dj).
Proof.
  intros asked. subst asked.
  repeat split; destruct lines; cbv -[app]; rewrite <- !app_assoc; reflexivity.
Qed.

(** C3, at the input where the code departs from it: the operator types a
    single space for the tags and accepts every other prefill.  The
    validator sees a non-empty lower-case string, [get_value] strips it, and
    the entry is stored with the empty string as its tags. *)
Theorem add_image_blank_tags (i n : nat) (lines : list string)
    (dir : gmap string string) (dj : option database) :
  add_image i n [] "a.png"
    (World (" " :: "" :: "" :: "" :: "" :: "" :: lines) [] dir dj)
  = (Ok (1, [("a", plain "" ["png"])]),
     World lines
       [Print (Header i n "a.png"); Ask AskTags ""; Ask AskTitle "";
        Ask AskAuthor ""; Ask AskLicense ""; Ask AskLanguage "";
        Ask AskDone ""; Print Done]
       dir dj).
Proof. destruct lines; vm_compute; reflexivity. Qed.

(** C10, at the input where the code departs from it: the catalogue has the
    key [.hidden] (from [.hidden.png]) and the new file is [.hidden].
    [split_ext] yields the base name [""], which is not a key, while
    [os.path.splitext] yields the stem [.hidden], which is one: the test
    [key[len(name)]] reads past the end of the key. *)
Theorem get_defaults_entry_index_error (obj : entry) (i n : nat) (w : world) :
  split_ext ".hidden" = ("", "hidden")
  /\ Str.splitext ".hidden" = (".hidden", "")
  /\ get_defaults_entry [(".hidden", obj)] ".hidden" = Raise IndexError
  /\ fst (add_image i n [(".hidden", obj)] ".hidden" w) = Raise IndexError.
Proof. repeat split; reflexivity. Qed.

(** ** Duplicate detection *)

(** The dict [hashes] stays empty, so no lookup in it succeeds: the loop
    prints nothing, and returns the flag it was started with unless a file
    cannot be opened. *)
Lemma check_loop_no_hashes sha1 db_images images :
  forall found w,
    check_loop sha1 db_images ∅ found images w
    = (if forallb (fun image => bool_decide (is_Some (images_dir w !! image)))
                  images
       then Ok found else Raise FileNotFoundError, w).
Proof.
  induction images as [| image rest IH]; intros found w; simpl.
  - reflexivity.
  - unfold bind, hash_file.
    destruct (images_dir w !! image) as [content |] eqn:Hfile; simpl.
    + rewrite lookup_empty. apply IH.
    + reflexivity.
Qed.

(** C1, at the input where the code departs from it.  Whatever the files,
    the digest and the order of iteration, [check_duplicate_images] never
    returns the flag [True] and prints no report, because it never records a
    digest.  With [a.png] and [b.png] byte-identical and [c.png] different it
    returns [False] and leaves the world as it was, where the detector that
    records the first file of each digest reports the pair and returns
    [True]. *)
Theorem check_duplicate_images_never_flags
    (iter : gset string -> list string) (sha1 : string -> string)
    (db_images images_set : gset string) (w : world) :
  fst (check_duplicate_images iter sha1 db_images images_set w) <> Ok true
  /\ snd (check_duplicate_images iter sha1 db_images images_set w) = w
  /\ check_duplicate_images elements plain_digest ∅ (dom abc_dir) abc_world
     = (Ok false, abc_world)
  /\ findDuplicates elements plain_digest ∅ (dom abc_dir) abc_world
     = (Ok true,
        World [] [Print (FilesIdentical "b.png" "a.png");
                  Print BothNotInDatabase]
              abc_dir (Some [])).
Proof.
  split; [| split; [| split]].
  - unfold check_duplicate_images. rewrite check_loop_no_hashes. simpl.
    destruct (forallb _ _); discriminate.
  - unfold check_duplicate_images. rewrite check_loop_no_hashes. reflexivity.
  - vm_compute. reflexivity.
  - vm_compute. reflexivity.
Qed.

(** ** Strings *)

#[local] Arguments String.append !_ _ / : simpl nomatch.

Lemma prefix_exact name : forall key,
  String.prefix name key = true ->
  String.get (String.length name) key = None ->
  key = name.
Proof.
  induction name as [| a name IH]; intros [| b key]; simpl; try congruence.
  destruct (ascii_dec a b) as [-> |]; [| discriminate].
  intros Hp Hg. f_equal. apply IH; assumption.
Qed.

Lemma prefix_next name c : forall key,
  String.prefix (name +:+ String c "") key = true
  <-> String.prefix name key = true
      /\ String.get (String.length name) key = Some c.
Proof.
  induction name as [| a name IH]; intros [| b key]; simpl.
  - split; [discriminate | intros [_ H]; discriminate].
  - destruct (ascii_dec c b) as [-> |].
    + split; [intros H; split; [reflexivity | reflexivity] | intros _].
      destruct key; reflexivity.
    + split; [discriminate | intros [_ H]; congruence].
  - split; [discriminate | intros [H _]; discriminate].
  - destruct (ascii_dec a b) as [-> |].
    + apply IH.
    + split; [discriminate | intros [H _]; discriminate].
Qed.

Lemma length_append a b :
  String.length (a +:+ b) = String.length a + String.length b.
Proof. induction a as [| c a IH]; simpl; [reflexivity | now rewrite IH]. Qed.

Lemma slice_to_append a b : Str.slice_to (String.length a) (a +:+ b) = a.
Proof. induction a as [| c a IH]; simpl; [now destruct b | now rewrite IH]. Qed.

Lemma slice_from_append a b : Str.slice_from (String.length a) (a +:+ b) = b.
Proof. induction a as [| c a IH]; simpl; [reflexivity | assumption]. Qed.

Lemma rindex_append c a b :
  Str.rindex c (a +:+ b)
  = match Str.rindex c b with
    | Some i => Some (String.length a + i)
    | None => Str.rindex c a
    end.
Proof.
  induction a as [| x a IH]; simpl.
  - destruct (Str.rindex c b); reflexivity.
  - rewrite IH. destruct (Str.rindex c b); [reflexivity |].
    destruct (Str.rindex c a); reflexivity.
Qed.

(** A string with a last separator is its two slices around it. *)
Lemma rindex_split c : forall s i,
  Str.rindex c s = Some i ->
  s = Str.slice_to i s +:+ String c (Str.slice_from (S i) s).
Proof.
  induction s as [| a s IH]; intros i; simpl; [discriminate |].
  destruct (Str.rindex c s) as [j |] eqn:Hj.
  - intros [= <-]. simpl. f_equal. apply IH. reflexivity.
  - destruct (Ascii.eqb a c) eqn:Hac; [| discriminate].
    intros [= <-]. apply Ascii.eqb_eq in Hac. subst a.
    simpl. destruct s; reflexivity.
Qed.

Lemma split_ext_filename name ext :
  Str.rindex "." ext = None -> split_ext (filename name ext) = (name, ext).
Proof.
  intros Hext. unfold split_ext, filename, Str.rfind.
  rewrite rindex_append. simpl. rewrite Hext. simpl.
  rewrite Nat.add_0_r.
  destruct (Z.eqb_spec (Z.of_nat (String.length name)) (-1)) as [H | _]; [lia |].
  rewrite Nat2Z.id.
  replace (Z.to_nat (Z.of_nat (String.length name) + 1))
    with (String.length (name +:+ ".")) by (rewrite length_append; simpl; lia).
  rewrite slice_to_append.
  change (name +:+ String "." ext) with (name +:+ "." +:+ ext).
  f_equal.
  replace (name +:+ "." +:+ ext) with ((name +:+ ".") +:+ ext).
  - apply slice_from_append.
  - clear. induction name as [| a name IH]; simpl; [reflexivity | now rewrite IH].
Qed.

Lemma filename_split_ext image :
  snd (split_ext image) <> "" ->
  image = filename (fst (split_ext image)) (snd (split_ext image)).
Proof.
  unfold split_ext, filename, Str.rfind.
  destruct (Str.rindex "." image) as [i |] eqn:Hi.
  - destruct (Z.eqb_spec (Z.of_nat i) (-1)) as [H | _]; [lia |]. simpl.
    intros _. rewrite Nat2Z.id.
    replace (Z.to_nat (Z.of_nat i + 1)) with (S i) by lia.
    apply rindex_split, Hi.
  - simpl. congruence.
Qed.

(** ** The defaults lookup *)

Lemma mem_false_keys name db :
  Db.mem name db = false -> forall key obj, In (key, obj) db -> key <> name.
Proof.
  unfold Db.mem. intros Hmem key obj Hin ->.
  assert (existsb (fun kv => String.eqb name (fst kv)) db = true) as H.
  { apply existsb_exists. exists (name, obj). split; [assumption |].
    apply String.eqb_refl. }
  congruence.
Qed.

(** Which keys the loop of [get_defaults_entry] stops at: the first one that
    starts with the stem and the separator, when no key before it is the
    stem itself. *)
Lemma get_defaults_entry_loop_first name db :
  (forall key obj, In (key, obj) db -> key <> name) ->
  match get_defaults_entry_loop name db with
  | Ok (Some obj) =>
      exists before key after,
        db = (before ++ (key, obj) :: after)%list
        /\ Str.startswith key (name +:+ ".") = true
        /\ Forall (fun kv => Str.startswith (fst kv) (name +:+ ".") = false)
                  before
  | Ok None =>
      Forall (fun kv => Str.startswith (fst kv) (name +:+ ".") = false) db
  | _ => False
  end.
Proof.
  unfold Str.startswith.
  induction db as [| [key obj] rest IH]; intros Hkeys; simpl.
  - constructor.
  - unfold Str.startswith.
    assert (Hrest : forall k o, In (k, o) rest -> k <> name)
      by (intros k o Hin; apply (Hkeys k o); right; assumption).
    specialize (IH Hrest).
    assert (Hskip :
              String.prefix (name +:+ ".") key = false ->
              match get_defaults_entry_loop name rest with
              | Ok (Some obj0) =>
                  exists before key0 after,
                    (key, obj) :: rest = (before ++ (key0, obj0) :: after)%list
                    /\ String.prefix (name +:+ ".") key0 = true
                    /\ Forall (fun kv => String.prefix (name +:+ ".") (fst kv) = false)
                              before
              | Ok None =>
                  Forall (fun kv => String.prefix (name +:+ ".") (fst kv) = false)
                         ((key, obj) :: rest)
              | _ => False
              end).
    { intros Hp. destruct (get_defaults_entry_loop name rest) as [[o |] | |];
        try assumption.
      - destruct IH as (before & k & after & -> & Hk & Hb).
        exists ((key, obj) :: before), k, after. repeat split; auto.
      - constructor; assumption. }
    destruct (String.prefix name key) eqn:Hpre.
    + destruct (String.get (String.length name) key) as [c |] eqn:Hget.
      * destruct (Ascii.eqb c ".") eqn:Hc.
        -- apply Ascii.eqb_eq in Hc. subst c.
           exists [], key, rest. repeat split; [| constructor].
           apply prefix_next. split; assumption.
        -- apply Hskip. destruct (String.prefix (name +:+ ".") key) eqn:Hp;
             [| reflexivity].
           apply prefix_next in Hp. destruct Hp as [_ Hg].
           rewrite Hget in Hg. inversion Hg; subst.
           rewrite Ascii.eqb_refl in Hc. discriminate.
      * exfalso. apply (Hkeys key obj); [left; reflexivity |].
        apply prefix_exact; assumption.
    + apply Hskip. destruct (String.prefix (name +:+ ".") key) eqn:Hp;
        [| reflexivity].
      apply prefix_next in Hp. destruct Hp as [Hp _]. congruence.
Qed.

(** C2, as the code has it: when the base name of the new image is not a
    key of the store, and is the stem [os.path.splitext] finds,
    [get_defaults_entry] returns the entry of the first key that starts with
    that base name followed immediately by the separator, and the empty
    defaults when no key does.  (The entry's key extends the base name of the
    image; the base name of the image does not extend the key.) *)
Theorem get_defaults_entry_extending_key (db : database)
    (image name ext : string) :
  split_ext image = (name, ext) ->
  Db.mem name db = false ->
  fst (Str.splitext image) = name ->
  match get_defaults_entry db image with
  | Ok (Some obj) =>
      exists before key after,
        db = (before ++ (key, obj) :: after)%list
        /\ Str.startswith key (name +:+ ".") = true
        /\ Forall (fun kv => Str.startswith (fst kv) (name +:+ ".") = false)
                  before
  | Ok None =>
      Forall (fun kv => Str.startswith (fst kv) (name +:+ ".") = false) db
  | _ => False
  end.
Proof.
  intros _ Hmem Hstem. unfold get_defaults_entry.
  destruct (Str.splitext image) as [stem e]. simpl in Hstem. subst stem.
  apply get_defaults_entry_loop_first, mem_false_keys, Hmem.
Qed.

Lemma get_defaults_entry_extending_key_witness :
  let db := [("bar", plain "a" ["png"]); ("foo.small", plain "b" ["png"])] in
  split_ext "foo.jpg" = ("foo", "jpg")
  /\ Db.mem "foo" db = false
  /\ fst (Str.splitext "foo.jpg") = "foo"
  /\ match get_defaults_entry db "foo.jpg" with
     | Ok (Some obj) =>
         exists before key after,
           db = (before ++ (key, obj) :: after)%list
           /\ Str.startswith key ("foo" +:+ ".") = true
           /\ Forall (fun kv => Str.startswith (fst kv) ("foo" +:+ ".") = false)
                     before
     | Ok None =>
         Forall (fun kv => Str.startswith (fst kv) ("foo" +:+ ".") = false) db
     | _ => False
     end.
Proof.
  intros db.
  split; [reflexivity |]. split; [reflexivity |]. split; [reflexivity |].
  apply (get_defaults_entry_extending_key db "foo.jpg" "foo" "jpg");
    reflexivity.
Defined.

(** C2 as stated fails in both directions.  With the store [{"foo": _}] and
    the image [foo.bar.png] the key [foo] followed by the separator is a
    strict prefix of the base name [foo.bar], and the lookup returns the
    empty defaults.  With the store [{"foo.bar": _}] and the image [foo.png]
    no key is a prefix of the base name [foo], and the lookup returns the
    entry of [foo.bar]. *)
Lemma get_defaults_entry_not_from_prefix :
  ~ (forall (db : database) (image name ext : string),
        split_ext image = (name, ext) ->
        Db.mem name db = false ->
        match get_defaults_entry db image with
        | Ok (Some obj) =>
            exists key, In (key, obj) db
                        /\ Str.startswith name (key +:+ ".") = true
        | Ok None =>
            forall key obj, In (key, obj) db ->
                            Str.startswith name (key +:+ ".") = false
        | _ => False
        end).
Proof.
  intros H.
  specialize (H [("foo", plain "x" ["png"])] "foo.bar.png" "foo.bar" "png"
                eq_refl eq_refl).
  vm_compute in H.
  specialize (H "foo" (plain "x" ["png"]) (or_introl eq_refl)).
  discriminate H.
Qed.

(** ** Reconciliation *)

Lemma elem_of_add_exts name (exts : list string) : forall (acc : gset string) f,
  f ∈ foldl (fun images ext => images ∪ {[ filename name ext ]}) acc exts
  <-> f ∈ acc \/ exists ext, In ext exts /\ f = filename name ext.
Proof.
  induction exts as [| ext exts IH]; intros acc f; simpl.
  - split; [auto | intros [H | (ext & [] & _)]; exact H].
  - rewrite IH, elem_of_union, elem_of_singleton. split.
    + intros [[H | ->] | (e & He & ->)]; eauto 6.
    + intros [H | (e & [<- | He] & ->)]; eauto 6.
Qed.

Lemma elem_of_db_items (db : database) : forall (acc : gset string) f,
  f ∈ foldl (fun images '(name, obj) =>
               foldl (fun images ext => images ∪ {[ filename name ext ]})
                     images (entry_exts obj))
            acc db
  <-> f ∈ acc
      \/ exists key obj ext,
           In (key, obj) db /\ In ext (entry_exts obj) /\ f = filename key ext.
Proof.
  induction db as [| [key obj] rest IH]; intros acc f; simpl.
  - split; [auto | intros [H | (k & o & e & [] & _)]; exact H].
  - rewrite IH, elem_of_add_exts. split.
    + intros [[H | (e & He & ->)] | (k & o & e & Hin & He & ->)].
      * auto.
      * right. exists key, obj, e. auto.
      * right. exists k, o, e. auto.
    + intros [H | (k & o & e & [Heq | Hin] & He & ->)].
      * auto.
      * inversion Heq; subst. left. right. eauto.
      * right. exists k, o, e. auto.
Qed.

(** [get_db_set] is the set of the names "{name}.{ext}" of the entries. *)
Lemma elem_of_get_db_set db f :
  f ∈ get_db_set db
  <-> exists key obj ext,
        In (key, obj) db /\ In ext (entry_exts obj) /\ f = filename key ext.
Proof.
  unfold get_db_set. rewrite elem_of_db_items. split.
  - intros [H | H]; [| exact H]. exfalso. revert H. apply not_elem_of_empty.
  - auto.
Qed.

(** With extensions that are not empty and hold no separator, the catalogue
    expands to the filenames whose base name and extension it has. *)
Lemma get_db_set_represented db image :
  plain_exts db -> image ∈ get_db_set db <-> represented db image.
Proof.
  intros Hplain. rewrite elem_of_get_db_set. unfold represented. split.
  - intros (key & obj & ext & Hin & Hext & ->).
    assert (Hp : plain_ext ext).
    { unfold plain_exts in Hplain. rewrite List.Forall_forall in Hplain.
      specialize (Hplain _ Hin). simpl in Hplain.
      rewrite List.Forall_forall in Hplain. apply Hplain, Hext. }
    destruct Hp as [_ Hdot].
    rewrite (split_ext_filename key ext Hdot). simpl. eauto.
  - intros (obj & Hin & Hext).
    exists (fst (split_ext image)), obj, (snd (split_ext image)).
    repeat split; try assumption.
    apply filename_split_ext.
    unfold plain_exts in Hplain. rewrite List.Forall_forall in Hplain.
    specialize (Hplain _ Hin). simpl in Hplain.
    rewrite List.Forall_forall in Hplain. apply (Hplain _ Hext).
Qed.

(** C5, as the code has it: when the extensions of the catalogue are not
    empty and hold no separator, the new-image set is exactly the set of the
    on-disk filenames whose (base name, extension) pair no entry has. *)
Theorem new_images_exact (db : database) (images : gset string)
    (image : string) :
  plain_exts db ->
  image ∈ new_images db images <-> image ∈ images /\ ~ represented db image.
Proof.
  intros Hplain. unfold new_images.
  rewrite elem_of_difference, (get_db_set_represented db image Hplain).
  reflexivity.
Qed.

Lemma new_images_exact_witness :
  plain_exts photo_db
  /\ ("photo.png" ∈ new_images photo_db {[ "photo.jpg"; "photo.png" ]}
      <-> "photo.png" ∈ ({[ "photo.jpg"; "photo.png" ]} : gset string)
          /\ ~ represented photo_db "photo.png").
Proof.
  assert (H : plain_exts photo_db).
  { repeat constructor; discriminate. }
  split; [exact H |].
  exact (new_images_exact photo_db {[ "photo.jpg"; "photo.png" ]}
                          "photo.png" H).
Defined.

(** C5 as stated fails for a catalogue with an extension that holds a
    separator: the entry [foo] with the extension [tar.gz] expands to
    [foo.tar.gz], so that file is not new, while its pair is
    ([foo.tar], [gz]), which no entry has. *)
Lemma new_images_not_exact :
  ~ (forall (db : database) (images : gset string) (image : string),
        image ∈ new_images db images
        <-> image ∈ images /\ ~ represented db image).
Proof.
  intros H.
  destruct (H [("foo", plain "x" ["tar.gz"])] {[ "foo.tar.gz" ]} "foo.tar.gz")
    as [_ Hback].
  assert (Hnew : "foo.tar.gz"
                 ∈ new_images [("foo", plain "x" ["tar.gz"])] {[ "foo.tar.gz" ]}).
  { apply Hback. split.
    - apply elem_of_singleton. reflexivity.
    - intros (obj & Hin & _). vm_compute in Hin.
      destruct Hin as [Heq | []]. discriminate Heq. }
  revert Hnew. vm_compute. intros Hnew. discriminate Hnew.
Qed.

(** ** The orchestrator: the exits before classification *)

(** C6: whenever the duplicate check returns [True], [main] prints the
    request to remove the duplicates and returns.  After the check it reads
    no input, classifies no image (no header is printed) and does not write
    [data.json]: the world is the one the check left, with that one line
    more.  The statement is about [main] with any duplicate check in the
    place of [check_duplicate_images], which itself never returns [True]. *)
Theorem duplicates_abort (iter : gset string -> list string)
    (check : gset string -> gset string -> M bool)
    (w w1 : world) (db : database) :
  data_json w = Some db ->
  check (get_db_set db) (dom (images_dir w)) w = (Ok true, w1) ->
  main_with iter check w = (Ok tt, printed RemoveDuplicatesFirst w1)
  /\ stdin (printed RemoveDuplicatesFirst w1) = stdin w1
  /\ data_json (printed RemoveDuplicatesFirst w1) = data_json w1
  /\ milestones (printed RemoveDuplicatesFirst w1) = milestones w1.
Proof.
  intros Hdb Hcheck. repeat split.
  - unfold main_with, bind, get_database, get_image_set.
    rewrite Hdb. simpl. rewrite Hcheck. reflexivity.
  - unfold milestones, printed. simpl. rewrite List.filter_app. simpl.
    apply app_nil_r.
Qed.

Lemma duplicates_abort_witness :
  main_with elements (findDuplicates elements plain_digest) abc_world
  = (Ok tt,
     World [] [Print (FilesIdentical "b.png" "a.png");
               Print BothNotInDatabase;
               Print RemoveDuplicatesFirst]
           abc_dir (Some [])).
Proof.
  refine (proj1 (duplicates_abort elements
                   (findDuplicates elements plain_digest) abc_world
                   (World [] [Print (FilesIdentical "b.png" "a.png");
                              Print BothNotInDatabase]
                          abc_dir (Some []))
                   [] eq_refl _)).
  vm_compute. reflexivity.
Defined.

(** Every name the loop of the duplicate check visits is a file of
    [images/], so the check of [main] finds every file. *)
Lemma check_duplicate_images_quiet iter sha1 db_images w :
  (forall X : gset string, iter X ≡ₚ elements X) ->
  check_duplicate_images iter sha1 db_images (dom (images_dir w)) w
  = (Ok false, w).
Proof.
  intros Hiter. unfold check_duplicate_images. rewrite check_loop_no_hashes.
  replace (forallb _ _) with true; [reflexivity |].
  symmetry. apply forallb_forall. intros image Hin.
  apply bool_decide_eq_true_2, elem_of_dom.
  apply elem_of_elements. rewrite <- (Hiter (dom (images_dir w))).
  apply list_elem_of_In, Hin.
Qed.



(** ** What classification does to the catalogue *)

Lemma add_image_step i n db image w c db' w' :
  add_image i n db image w = (Ok (c, db'), w') -> add_step image db c db'.
Proof.
  unfold add_image. intros H.
  apply bind_ok in H. destruct H as (u & w1 & _ & H).
  destruct (split_ext image) as [name ext] eqn:Hsplit.
  destruct (String.length ext =? 0)%nat eqn:Hlen.
  - apply bind_ok in H. destruct H as (u2 & w2 & _ & H).
    inversion H; subst. constructor.
  - assert (Hext : ext <> "") by (intros ->; discriminate Hlen).
    destruct (Db.get name db) as [obj |] eqn:Hget.
    + apply bind_ok in H. destruct H as (answer & w2 & _ & H).
      destruct (String.eqb answer "" || String.eqb answer "Y"); cbv zeta in H;
        apply bind_ok in H; destruct H as (u3 & w3 & _ & H);
        inversion H; subst.
      * eapply add_step_append; eauto.
      * constructor.
    + apply bind_ok in H. destruct H as (d & w2 & _ & H). cbv zeta in H.
      apply bind_ok in H. destruct H as (fuel & w3 & _ & H).
      apply bind_ok in H. destruct H as (v & w4 & _ & H). cbv zeta in H.
      apply bind_ok in H. destruct H as (u5 & w5 & _ & H).
      inversion H; subst.
      eapply add_step_new; eauto.
Qed.

Lemma covered_mono (S S' : gset string) db :
  S ⊆ S' -> covered S db -> covered S' db.
Proof.
  intros Hsub. apply List.Forall_impl. intros [key obj] [Hnd Hin].
  split; [exact Hnd |]. intros ext Hext. apply Hsub, Hin, Hext.
Qed.

Lemma covered_distinct S db : covered S db -> distinct_exts db.
Proof. apply List.Forall_impl. intros kv [Hnd _]. exact Hnd. Qed.

Lemma covered_initial db : distinct_exts db -> covered (get_db_set db) db.
Proof.
  unfold distinct_exts, covered. rewrite !List.Forall_forall.
  intros Hnd [key obj] Hin. split; [apply (Hnd _ Hin) |].
  intros ext Hext. apply elem_of_get_db_set. exists key, obj, ext. auto.
Qed.

Lemma covered_append S name ext image : forall db,
  image = filename name ext ->
  image ∉ S ->
  covered S db ->
  covered (S ∪ {[ image ]}) (Db.append_ext name ext db).
Proof.
  intros db Himage Hnew.
  induction db as [| [key obj] rest IH]; intros Hcov; simpl.
  - constructor.
  - inversion Hcov as [| kv l [Hnd Hin] Hrest]; subst kv l. simpl in Hnd, Hin.
    destruct (String.eqb name key) eqn:Heq.
    + apply String.eqb_eq in Heq. subst key.
      constructor.
      * simpl. split.
        -- apply NoDup_app. repeat split.
           ++ exact Hnd.
           ++ intros x Hx Hx'. apply list_elem_of_In in Hx, Hx'.
              destruct Hx' as [<- | []]. apply Hnew. rewrite Himage.
              apply Hin, Hx.
           ++ apply NoDup_singleton.
        -- intros e He. apply in_app_or in He. destruct He as [He | [<- | []]].
           ++ apply elem_of_union_l, Hin, He.
           ++ apply elem_of_union_r, elem_of_singleton. symmetry. exact Himage.
      * eapply covered_mono; [| exact Hrest]. apply union_subseteq_l.
    + constructor.
      * simpl. split; [exact Hnd |].
        intros e He. apply elem_of_union_l, Hin, He.
      * apply IH, Hrest.
Qed.

Lemma covered_set S name obj ext image : forall db,
  image = filename name ext ->
  entry_exts obj = [ext] ->
  Db.get name db = None ->
  covered S db ->
  covered (S ∪ {[ image ]}) (Db.set name obj db).
Proof.
  intros db Himage Hobj.
  induction db as [| [key old] rest IH]; simpl; intros Hget Hcov.
  - constructor; [| constructor]. simpl. rewrite Hobj. split.
    + apply NoDup_singleton.
    + intros e [<- | []]. apply elem_of_union_r, elem_of_singleton.
      symmetry. exact Himage.
  - inversion Hcov as [| kv l [Hnd Hin] Hrest]; subst kv l. simpl in Hnd, Hin.
    destruct (String.eqb name key); [discriminate Hget |].
    constructor.
    + simpl. split; [exact Hnd |].
      intros e He. apply elem_of_union_l, Hin, He.
    + apply IH; assumption.
Qed.

(** One call of [add_image] on a file that is not covered yet keeps the
    invariant, with that file covered. *)
Lemma covered_step S image db c db' :
  add_step image db c db' ->
  image ∉ S ->
  covered S db ->
  covered (S ∪ {[ image ]}) db'.
Proof.
  intros Hstep Hnew Hcov. destruct Hstep as [| name ext obj Hsplit Hext Hget
                                              | name ext obj Hsplit Hext Hget Hobj].
  - eapply covered_mono; [| exact Hcov]. apply union_subseteq_l.
  - apply covered_append; try assumption.
    pose proof (filename_split_ext image) as Hf. rewrite Hsplit in Hf.
    apply Hf, Hext.
  - eapply covered_set; try eassumption.
    pose proof (filename_split_ext image) as Hf. rewrite Hsplit in Hf.
    apply Hf, Hext.
Qed.

Lemma add_images_covered n images : forall S db i count w count' db' w',
  NoDup images ->
  (forall image, In image images -> image ∉ S) ->
  covered S db ->
  add_images n db i count images w = (Ok (count', db'), w') ->
  covered (S ∪ list_to_set images) db'.
Proof.
  induction images as [| image rest IH];
    intros S db i count w count' db' w' Hnd Hnew Hcov H; simpl in H.
  - inversion H; subst. eapply covered_mono; [| exact Hcov].
    apply union_subseteq_l.
  - apply bind_ok in H. destruct H as ([added db1] & w1 & Hadd & H).
    apply add_image_step in Hadd.
    apply NoDup_cons in Hnd. destruct Hnd as [Hfresh Hnd].
    assert (Hcov1 : covered (S ∪ {[ image ]}) db1).
    { eapply covered_step; eauto. apply Hnew. left. reflexivity. }
    assert (Hnew1 : forall x, In x rest -> x ∉ S ∪ {[ image ]}).
    { intros x Hx Hin. apply elem_of_union in Hin. destruct Hin as [Hin | Hin].
      - exact (Hnew x (or_intror Hx) Hin).
      - apply elem_of_singleton in Hin. subst x.
        apply Hfresh, list_elem_of_In, Hx. }
    specialize (IH _ _ _ _ _ _ _ _ Hnd Hnew1 Hcov1 H).
    eapply covered_mono; [| exact IH]. simpl.
    intros x. rewrite !elem_of_union. tauto.
Qed.

(** ** The run as a whole *)

Lemma milestone_ask p s : milestone (Ask p s) = false.
Proof. reflexivity. Qed.

Lemma milestone_plain l : plain_line l -> milestone (Print l) = false.
Proof. destruct l; simpl; intros H; (reflexivity || destruct H). Qed.

Lemma nothing_plain l : plain_line l -> nothing (Print l) = false.
Proof. reflexivity. Qed.

(** [add_image] leaves [data.json] alone and marks the trace with its
    header, whatever its outcome. *)
Lemma add_image_run i n db image w r w' :
  add_image i n db image w = (r, w') ->
  data_json w' = data_json w
  /\ milestones w' = (milestones w ++ [Print (Header i n image)])%list.
Proof.
  intros H. split.
  - apply (classify_after_header nothing data_json blind_data_json
             (fun _ _ => eq_refl) nothing_plain _ _ _ _ _ _ _ H).
  - rewrite (classify_after_header milestone milestones blind_milestones
               milestone_ask milestone_plain _ _ _ _ _ _ _ H).
    unfold milestones, printed. simpl. rewrite List.filter_app. reflexivity.
Qed.

(** The loop over the new images marks the trace with the headers of the
    images it reached, in the order of the list; of all of them when it
    returns. *)
Lemma add_images_run n images : forall db i count w r w',
  add_images n db i count images w = (r, w') ->
  data_json w' = data_json w
  /\ (exists k,
        milestones w' = (milestones w ++ headers_from n i (take k images))%list)
  /\ (forall v, r = Ok v ->
        milestones w' = (milestones w ++ headers_from n i images)%list).
Proof.
  induction images as [| image rest IH]; intros db i count w r w' H; simpl in H.
  - inversion H; subst. repeat split.
    + exists 0. simpl. rewrite app_nil_r. reflexivity.
    + intros _ _. simpl. rewrite app_nil_r. reflexivity.
  - apply bind_cases in H.
    destruct H as [([added db1] & w1 & Hadd & H) | [(e & Hadd & ->) | [Hadd ->]]].
    + apply add_image_run in Hadd. destruct Hadd as [Hdj Hms].
      apply IH in H. destruct H as (Hdj' & [k Hk] & Hok).
      repeat split.
      * congruence.
      * exists (S k). rewrite Hk, Hms, <- app_assoc. reflexivity.
      * intros v Hv. rewrite (Hok v Hv), Hms, <- app_assoc. reflexivity.
    + apply add_image_run in Hadd. destruct Hadd as [Hdj Hms].
      repeat split; [exact Hdj | | discriminate].
      exists 1. rewrite Hms. simpl. rewrite ?take_0. reflexivity.
    + apply add_image_run in Hadd. destruct Hadd as [Hdj Hms].
      repeat split; [exact Hdj | | discriminate].
      exists 1. rewrite Hms. simpl. rewrite ?take_0. reflexivity.
Qed.

Lemma insert_sorted_Forall (P : string * entry -> Prop) kv : forall db,
  P kv -> Forall P db -> Forall P (insert_sorted kv db).
Proof.
  induction db as [| kv' rest IH]; intros Hkv Hdb; simpl.
  - constructor; [exact Hkv | constructor].
  - inversion Hdb; subst.
    destruct (String.leb (fst kv) (fst kv')).
    + constructor; assumption.
    + constructor; [assumption | apply IH; assumption].
Qed.

Lemma sort_keys_Forall (P : string * entry -> Prop) db :
  Forall P db -> Forall P (sort_keys db).
Proof.
  unfold sort_keys. induction 1 as [| kv rest Hkv Hrest IH]; simpl.
  - constructor.
  - apply insert_sorted_Forall; assumption.
Qed.

(** The two ways a run of [main] on a loadable catalogue can go: it leaves
    [data.json] alone, having printed the headers of the images it reached;
    or the loop over the new images returned, and it wrote the catalogue of
    the loop. *)
Lemma main_run iter sha1 w db r w' :
  data_json w = Some db ->
  main iter sha1 w = (r, w') ->
  let new := new_images db (dom (images_dir w)) in
  (data_json w' = Some db
   /\ exists k,
        milestones w'
        = (milestones w ++ headers_from (size new) 0 (take k (iter new)))%list)
  \/ (exists count db' w1 w2,
        add_images (size new) db 0 0 (iter new) w1 = (Ok (count, db'), w2)
        /\ data_json w' = Some (sort_keys db')
        /\ milestones w'
           = (milestones w ++ headers_from (size new) 0 (iter new)
                ++ [Dump db'])%list
        /\ r = Ok tt).
Proof.
  intros Hdb H new.
  assert (Hstay : data_json w = Some db
                   /\ exists k, milestones w
                      = (milestones w
                         ++ headers_from (size new) 0 (take k (iter new)))%list).
  { split; [exact Hdb |]. exists 0. rewrite take_0. simpl.
    rewrite app_nil_r. reflexivity. }
  unfold main, main_with in H.
  apply bind_cases in H.
  destruct H as [(db0 & w0 & Hload & H) | [(e & Hload & _) | [Hload _]]];
    unfold get_database in Hload; rewrite Hdb in Hload; inversion Hload;
    subst db0 w0; clear Hload.
  apply bind_cases in H.
  destruct H as [(images & w0 & Hscan & H) | [(e & Hscan & _) | [Hscan _]]];
    inversion Hscan; subst images w0; clear Hscan.
  cbv zeta in H. fold new in H.
  apply bind_cases in H. unfold check_duplicate_images in H.
  rewrite check_loop_no_hashes in H.
  destruct H as [(dup & w0 & Hcheck & H) | [(e & Hcheck & _) | [Hcheck _]]];
    inversion Hcheck; subst; clear Hcheck; try (left; exact Hstay).
  destruct (forallb _ _); [| discriminate].
  match goal with Hd : Ok _ = Ok _ |- _ => inversion Hd; subst dup; clear Hd end.
  destruct (size new =? 0)%nat.
  { left. inversion H; subst. split; [exact Hdb |].
    exists 0. rewrite take_0. unfold milestones. simpl.
    rewrite List.filter_app. simpl. reflexivity. }
  apply bind_cases in H.
  assert (Hinput : forall ri wi,
             input (AskStart (size new)) w0 = (ri, wi) ->
             data_json wi = data_json w0 /\ milestones wi = milestones w0).
  { intros ri wi Hi. split.
    - apply (quiet_input nothing data_json blind_data_json
               (fun _ _ => eq_refl) _ _ _ _ Hi).
    - apply (quiet_input milestone milestones blind_milestones
               milestone_ask _ _ _ _ Hi). }
  destruct H as [(answer & wi & Hi & H) | [(e & Hi & _) | [Hi _]]];
    destruct (Hinput _ _ Hi) as [Hdji Hmsi];
    try (left; split; [congruence |];
         exists 0; rewrite take_0, Hmsi; simpl; rewrite app_nil_r; reflexivity).
  destruct (String.eqb answer "n").
  { inversion H; subst. left. split; [congruence |].
    exists 0. rewrite take_0, Hmsi. simpl. rewrite app_nil_r. reflexivity. }
  apply bind_cases in H.
  destruct H as [([count db'] & wa & Hadd & H) | [(e & Hadd & _) | [Hadd _]]];
    destruct (add_images_run _ _ _ _ _ _ _ _ Hadd) as (Hdja & [k Hk] & Hok);
    try (left; split; [congruence |];
         exists k; rewrite Hk, Hmsi; reflexivity).
  right. exists count, db', wi, wa.
  unfold bind, json_dump, print, emit in H. simpl in H. inversion H; subst.
  repeat split.
  - exact Hadd.
  - unfold milestones. simpl. rewrite !List.filter_app. simpl.
    rewrite app_nil_r. fold (milestones wa).
    rewrite (Hok _ eq_refl), Hmsi, <- app_assoc. reflexivity.
Qed.

(** C8: if no extension appears twice within an entry of the catalogue that
    is loaded, then none does in the catalogue that [data.json] holds after
    the run, whether the run wrote it or not.  The files classified are
    those of the on-disk set that the expansion of the catalogue lacks, each
    once, so an extension appended to an entry, or stored with a new entry,
    is not one the entry has. *)
Theorem exts_stay_distinct (iter : gset string -> list string)
    (sha1 : string -> string) (w w' : world) (db : database)
    (r : result unit) :
  (forall X : gset string, iter X ≡ₚ elements X) ->
  data_json w = Some db ->
  distinct_exts db ->
  main iter sha1 w = (r, w') ->
  exists db', data_json w' = Some db' /\ distinct_exts db'.
Proof.
  intros Hiter Hdb Hdistinct Hrun.
  destruct (main_run iter sha1 w db r w' Hdb Hrun)
    as [[Hsame _] | (count & db' & w1 & w2 & Hadd & Hwritten & _)].
  - exists db. auto.
  - exists (sort_keys db'). split; [exact Hwritten |].
    apply sort_keys_Forall.
    set (new := new_images db (dom (images_dir w))) in *.
    apply (covered_distinct (get_db_set db ∪ list_to_set (iter new))).
    eapply add_images_covered; [| | | exact Hadd].
    + rewrite (Hiter new). apply NoDup_elements.
    + intros image Hin Hold.
      apply list_elem_of_In in Hin. rewrite (Hiter new) in Hin.
      apply elem_of_elements in Hin. unfold new, new_images in Hin.
      apply elem_of_difference in Hin.
      destruct Hin as [_ Hin]. exact (Hin Hold).
    + apply covered_initial, Hdistinct.
Qed.

Lemma exts_stay_distinct_witness :
  main elements plain_digest photo_png_world
  = (Ok tt,
     World [] [Ask (AskStart 1) ""; Print (Header 1 1 "photo.png");
               Ask (AskNewType ["jpg"] "png") ""; Print Done;
               Dump [("photo", plain "x" ["jpg"; "png"])]; Print (Wrote 1)]
           (images_dir photo_png_world)
           (Some [("photo", plain "x" ["jpg"; "png"])]))
  /\ exists db', Some [("photo", plain "x" ["jpg"; "png"])] = Some db'
                 /\ distinct_exts db'.
Proof.
  assert (Hrun : main elements plain_digest photo_png_world
                 = (Ok tt,
                    World [] [Ask (AskStart 1) "";
                              Print (Header 1 1 "photo.png");
                              Ask (AskNewType ["jpg"] "png") ""; Print Done;
                              Dump [("photo", plain "x" ["jpg"; "png"])];
                              Print (Wrote 1)]
                          (images_dir photo_png_world)
                          (Some [("photo", plain "x" ["jpg"; "png"])])))
    by (vm_compute; reflexivity).
  split; [exact Hrun |].
  refine (exts_stay_distinct elements plain_digest photo_png_world _ photo_db
            (Ok tt) (fun X => reflexivity (elements X)) eq_refl _ Hrun).
  repeat constructor. intros H. apply elem_of_nil in H. exact H.
Defined.

Lemma headers_from_no_dump n images : forall i d,
  ~ In (Dump d) (headers_from n i images).
Proof.
  induction images as [| image rest IH]; intros i d; simpl.
  - auto.
  - intros [H | H]; [discriminate H | exact (IH _ _ H)].
Qed.

(** C9, as the code has it: [main] imposes no order of its own.  It
    classifies the new images in the order in which the interpreter iterates
    over the set, numbering them from 1: in a run that writes [data.json],
    the headers printed are those of [iter new_images] in that order, and
    the write comes after them. *)
Theorem classification_in_iteration_order (iter : gset string -> list string)
    (sha1 : string -> string) (w w' : world) (db d : database)
    (r : result unit) :
  data_json w = Some db ->
  trace w = [] ->
  main iter sha1 w = (r, w') ->
  In (Dump d) (trace w') ->
  let new := new_images db (dom (images_dir w)) in
  milestones w' = (headers_from (size new) 0 (iter new) ++ [Dump d])%list.
Proof.
  intros Hdb Hfresh Hrun Hdump new.
  assert (Hmark : In (Dump d) (milestones w')).
  { unfold milestones. apply List.filter_In. split; [exact Hdump | reflexivity]. }
  assert (Hstart : milestones w = []) by (unfold milestones; now rewrite Hfresh).
  destruct (main_run iter sha1 w db r w' Hdb Hrun)
    as [[_ [k Hk]] | (count & db' & w1 & w2 & _ & _ & Hms & _)].
  - exfalso. rewrite Hk, Hstart in Hmark. simpl in Hmark.
    exact (headers_from_no_dump _ _ _ _ Hmark).
  - fold new in Hms. rewrite Hms, Hstart in Hmark |- *. simpl in *.
    apply in_app_or in Hmark. destruct Hmark as [Hmark | [Hmark | []]].
    + exfalso. exact (headers_from_no_dump _ _ _ _ Hmark).
    + inversion Hmark; subst. reflexivity.
Qed.

Lemma classification_in_iteration_order_witness :
  milestones (snd (main backwards plain_digest two_new_world))
  = [Print (Header 1 2 "b.png"); Print (Header 2 2 "a.png");
     Dump [("b", plain "t" ["png"]); ("a", plain "t" ["png"])]].
Proof.
  refine (classification_in_iteration_order backwards plain_digest
            two_new_world _ [] [("b", plain "t" ["png"]); ("a", plain "t" ["png"])]
            (fst (main backwards plain_digest two_new_world))
            eq_refl eq_refl _ _).
  - apply surjective_pairing.
  - vm_compute. tauto.
Defined.

(** C9 as stated fails: two runs on the same catalogue, the same files and
    the same input number the images differently when the interpreter
    iterates over the set in a different order, which nothing in [main]
    prevents. *)
Lemma processing_order_not_fixed :
  ~ (forall (iter1 iter2 : gset string -> list string)
            (sha1 : string -> string) (w : world),
        (forall X : gset string, iter1 X ≡ₚ elements X) ->
        (forall X : gset string, iter2 X ≡ₚ elements X) ->
        milestones (snd (main iter1 sha1 w))
        = milestones (snd (main iter2 sha1 w))).
Proof.
  intros H.
  specialize (H elements backwards plain_digest two_new_world
                (fun X => reflexivity (elements X))
                (fun X => reverse_Permutation (elements X))).
  vm_compute in H. discriminate H.
Qed.

(** ** The loops of the embedding never reach their bound

    [get_value] and [add_image] give their loops as many rounds as the
    operator has lines left; each round reads at least one line, so a loop
    ends, by a valid answer or by [EOFError], before the bound. *)

Lemma get_value_loop_eq fuel p is_valid value :
  get_value_loop fuel p is_valid value
  = (ok <- is_valid value ;;
     if ok then ret (Str.strip value)
     else
       value' <- rlinput p value ;;
       match fuel with
       | O => out_of_fuel
       | S fuel' => get_value_loop fuel' p is_valid value'
       end).
Proof. destruct fuel; reflexivity. Qed.

Lemma ask_fields_eq fuel v :
  ask_fields fuel v
  = (tags <- get_value AskTags is_valid_tags (f_tags v) ;;
     title <- get_value AskTitle is_valid_title (f_title v) ;;
     author <- get_value AskAuthor is_valid_author (f_author v) ;;
     license <- get_value AskLicense is_valid_license (f_license v) ;;
     language <- get_value AskLanguage is_valid_language (f_language v) ;;
     answer <- get_value AskDone is_yes_no "" ;;
     if String.eqb answer "" || String.eqb answer "Y" then
       ret (Fields tags title author license language)
     else
       match fuel with
       | O => out_of_fuel
       | S fuel' => ask_fields fuel' (Fields tags title author license language)
       end).
Proof. destruct fuel; reflexivity. Qed.

Ltac tidy_validator :=
  intros value w;
  cbv [is_valid_tags is_valid_title is_valid_author is_valid_license
       is_valid_language is_yes_no bind print emit ret];
  repeat match goal with
         | |- context [if ?b then _ else _] => destruct b
         end;
  simpl; eauto.

Lemma tidy_is_valid_tags : tidy is_valid_tags.
Proof. tidy_validator. Qed.

Lemma tidy_is_valid_title : tidy is_valid_title.
Proof. tidy_validator. Qed.

Lemma tidy_is_valid_author : tidy is_valid_author.
Proof. tidy_validator. Qed.

Lemma tidy_is_valid_license : tidy is_valid_license.
Proof. tidy_validator. Qed.

Lemma tidy_is_valid_language : tidy is_valid_language.
Proof. tidy_validator. Qed.

Lemma tidy_is_yes_no : tidy is_yes_no.
Proof. tidy_validator. Qed.

Lemma get_value_loop_fuel p is_valid :
  tidy is_valid ->
  forall fuel value w,
    List.length (stdin w) <= fuel ->
    fst (get_value_loop fuel p is_valid value w) <> OutOfFuel
    /\ List.length (stdin (snd (get_value_loop fuel p is_valid value w)))
       <= List.length (stdin w).
Proof.
  intros Htidy. induction fuel as [| fuel IH]; intros value w Hfuel;
    rewrite get_value_loop_eq; unfold bind;
    destruct (Htidy value w) as (ok & w1 & -> & Hin);
    (destruct ok; [simpl; rewrite Hin; split; [discriminate | lia] |]);
    unfold rlinput; rewrite Hin;
    destruct (stdin w) as [| line rest] eqn:Hlines; simpl in *;
    try (split; [discriminate | lia]).
  - lia.
  - match goal with
    | |- context [get_value_loop fuel p is_valid line ?w2] =>
        destruct (IH line w2) as [Hok Hle]; [simpl; lia |]
    end.
    simpl in Hle. split; [exact Hok | lia].
Qed.

Lemma get_value_fuel p is_valid prefill w :
  tidy is_valid ->
  fst (get_value p is_valid prefill w) <> OutOfFuel
  /\ forall value w',
       get_value p is_valid prefill w = (Ok value, w') ->
       List.length (stdin w') < List.length (stdin w).
Proof.
  intros Htidy. unfold get_value, bind, rlinput, lines_left.
  destruct (stdin w) as [| line rest] eqn:Hlines; simpl.
  - split; [discriminate | intros value w' H; discriminate H].
  - match goal with
    | |- context [get_value_loop _ p is_valid line ?w2] =>
        destruct (get_value_loop_fuel p is_valid Htidy
                    (List.length rest) line w2) as [Hok Hle];
        [simpl; lia |];
        destruct (get_value_loop (List.length rest) p is_valid line w2)
          as [r w3] eqn:Hloop
    end.
    simpl in *. split; [exact Hok |].
    intros value w' H. inversion H; subst. lia.
Qed.

Lemma bind_fuel {A B} (m : M A) (k : A -> M B) w :
  fst (m w) <> OutOfFuel ->
  (forall a w1, m w = (Ok a, w1) -> fst (k a w1) <> OutOfFuel) ->
  fst (bind m k w) <> OutOfFuel.
Proof.
  unfold bind. destruct (m w) as [[a | e |] w1]; simpl; intros Hm Hk.
  - apply Hk. reflexivity.
  - discriminate.
  - exfalso. apply Hm. reflexivity.
Qed.

Lemma ask_fields_fuel : forall fuel v w,
  List.length (stdin w) <= fuel -> fst (ask_fields fuel v w) <> OutOfFuel.
Proof.
  induction fuel as [| fuel IH]; intros v w Hfuel; rewrite ask_fields_eq.
  - apply bind_fuel; [apply get_value_fuel, tidy_is_valid_tags |].
    intros tags w1 H1.
    apply (get_value_fuel _ _ _ _ tidy_is_valid_tags) in H1. lia.
  - apply bind_fuel; [apply get_value_fuel, tidy_is_valid_tags |].
    intros tags w1 H1.
    apply (get_value_fuel _ _ _ _ tidy_is_valid_tags) in H1.
    apply bind_fuel; [apply get_value_fuel, tidy_is_valid_title |].
    intros title w2 H2.
    apply (get_value_fuel _ _ _ _ tidy_is_valid_title) in H2.
    apply bind_fuel; [apply get_value_fuel, tidy_is_valid_author |].
    intros author w3 H3.
    apply (get_value_fuel _ _ _ _ tidy_is_valid_author) in H3.
    apply bind_fuel; [apply get_value_fuel, tidy_is_valid_license |].
    intros license w4 H4.
    apply (get_value_fuel _ _ _ _ tidy_is_valid_license) in H4.
    apply bind_fuel; [apply get_value_fuel, tidy_is_valid_language |].
    intros language w5 H5.
    apply (get_value_fuel _ _ _ _ tidy_is_valid_language) in H5.
    apply bind_fuel; [apply get_value_fuel, tidy_is_yes_no |].
    intros answer w6 H6.
    apply (get_value_fuel _ _ _ _ tidy_is_yes_no) in H6.
    destruct (String.eqb answer "" || String.eqb answer "Y").
    + discriminate.
    + apply IH. lia.
Qed.

Ltac returns :=
  unfold print, emit, ret, lines_left, get_image_set, json_dump;
  simpl; discriminate.

Lemma get_defaults_entry_fuel db image :
  get_defaults_entry db image <> OutOfFuel.
Proof.
  unfold get_defaults_entry. destruct (Str.splitext image) as [name ext].
  induction db as [| [key obj] rest IH]; simpl.
  - discriminate.
  - destruct (Str.startswith key name); [| exact IH].
    destruct (String.get (String.length name) key) as [c |]; [| discriminate].
    destruct (Ascii.eqb c "."); [discriminate | exact IH].
Qed.

(** [add_image] returns or raises: its loops do not reach their bound. *)
Lemma add_image_fuel i n db image w :
  fst (add_image i n db image w) <> OutOfFuel.
Proof.
  unfold add_image.
  apply bind_fuel; [returns | intros u w1 _].
  destruct (split_ext image) as [name ext].
  destruct (String.length ext =? 0)%nat.
  { apply bind_fuel; [returns | intros u2 w2 _; returns]. }
  destruct (Db.get name db) as [obj |].
  - apply bind_fuel; [apply get_value_fuel, tidy_is_yes_no |].
    intros answer w2 _.
    destruct (String.eqb answer "" || String.eqb answer "Y"); cbv zeta;
      (apply bind_fuel; [returns | intros u3 w3 _; returns]).
  - apply bind_fuel.
    { unfold lift. simpl. apply get_defaults_entry_fuel. }
    intros d w2 _. cbv zeta.
    apply bind_fuel; [returns |].
    intros fuel w3 Hfuel. inversion Hfuel; subst.
    apply bind_fuel; [apply ask_fields_fuel; reflexivity |].
    intros v w4 _. cbv zeta.
    apply bind_fuel; [returns | intros u5 w5 _; returns].
Qed.

Lemma add_images_fuel n images : forall db i count w,
  fst (add_images n db i count images w) <> OutOfFuel.
Proof.
  induction images as [| image rest IH]; intros db i count w; simpl.
  - returns.
  - apply bind_fuel; [apply add_image_fuel |].
    intros [added db1] w1 _. apply IH.
Qed.

(** [main] returns or raises, for every world. *)
Lemma main_fuel iter sha1 w : fst (main iter sha1 w) <> OutOfFuel.
Proof.
  unfold main, main_with.
  apply bind_fuel.
  { unfold get_database. destruct (data_json w); returns. }
  intros db w0 _.
  apply bind_fuel; [returns | intros images w1 _]. cbv zeta.
  apply bind_fuel.
  { unfold check_duplicate_images. rewrite check_loop_no_hashes. simpl.
    destruct (forallb _ _); returns. }
  intros dup w2 _. destruct dup; [returns |].
  destruct (size _ =? 0)%nat; [returns |].
  apply bind_fuel.
  { unfold input, rlinput. destruct (stdin w2); returns. }
  intros answer w3 _.
  destruct (String.eqb answer "n"); [returns |].
  apply bind_fuel; [apply add_images_fuel |].
  intros [count db'] w4 _.
  apply bind_fuel; [returns | intros u w5 _; returns].
Qed.

(** * Further properties *)

(** ** Splitting a name *)

Lemma rindex_slice_from c : forall s i,
  Str.rindex c s = Some i -> Str.rindex c (Str.slice_from (S i) s) = None.
Proof.
  induction s as [| a s IH]; intros i; simpl; [discriminate |].
  destruct (Str.rindex c s) as [j |] eqn:Hj.
  - intros [= <-]. simpl. apply IH. reflexivity.
  - destruct (Ascii.eqb a c); [| discriminate].
    intros [= <-]. simpl. destruct s; assumption.
Qed.

Lemma rindex_lt c : forall s i,
  Str.rindex c s = Some i -> i < String.length s.
Proof.
  induction s as [| a s IH]; intros i; simpl; [discriminate |].
  destruct (Str.rindex c s) as [j |] eqn:Hj.
  - intros [= <-]. specialize (IH j eq_refl). lia.
  - destruct (Ascii.eqb a c); [| discriminate]. intros [= <-]. lia.
Qed.

Lemma split_ext_some image i :
  Str.rindex "." image = Some i ->
  split_ext image = (Str.slice_to i image, Str.slice_from (S i) image).
Proof.
  intros Hi. unfold split_ext, Str.rfind. rewrite Hi.
  destruct (Z.eqb_spec (Z.of_nat i) (-1)) as [H | _]; [lia |].
  rewrite Nat2Z.id. replace (Z.to_nat (Z.of_nat i + 1)) with (S i) by lia.
  reflexivity.
Qed.

Lemma split_ext_none image :
  Str.rindex "." image = None -> split_ext image = (image, "").
Proof. intros Hi. unfold split_ext, Str.rfind. rewrite Hi. reflexivity. Qed.

(** The extension [split_ext] returns holds no separator. *)
Lemma split_ext_no_dot image name ext :
  split_ext image = (name, ext) -> Str.rindex "." ext = None.
Proof.
  destruct (Str.rindex "." image) as [i |] eqn:Hi.
  - rewrite (split_ext_some _ _ Hi). intros [= _ <-].
    apply rindex_slice_from, Hi.
  - rewrite (split_ext_none _ Hi). intros [= _ <-]. reflexivity.
Qed.

(** X1: [split_ext] cuts a name at its last dot and nowhere else.  It
    returns [(name, ext)] exactly when the name has no dot, [name] is the
    whole of it and [ext] is empty, or when the name is [name], a dot and
    [ext], and [ext] has no dot.  So the two parts of a name with a dot
    compose to the name again, and a base name and a dot-free extension,
    composed and split, come back. *)
Theorem split_ext_spec (image name ext : string) :
  split_ext image = (name, ext)
  <-> (Str.rindex "." image = None /\ name = image /\ ext = "")
      \/ (image = filename name ext /\ Str.rindex "." ext = None).
Proof.
  split.
  - intros Hsplit. pose proof (split_ext_no_dot _ _ _ Hsplit) as Hext.
    destruct (Str.rindex "." image) as [i |] eqn:Hi.
    + right. split; [| exact Hext].
      rewrite (split_ext_some _ _ Hi) in Hsplit.
      inversion Hsplit; subst name ext. apply rindex_split, Hi.
    + left. rewrite (split_ext_none _ Hi) in Hsplit.
      inversion Hsplit; subst name ext. auto.
  - intros [(Hi & -> & ->) | [-> Hext]].
    + apply split_ext_none, Hi.
    + apply split_ext_filename, Hext.
Qed.

Lemma has_stem_cons c p : forall n k,
  Str.has_stem (String c p) (S k) n = Str.has_stem p k n.
Proof.
  induction n as [| n IH]; intros k; simpl; [reflexivity |].
  destruct (String.get k p) as [a |]; [| reflexivity].
  destruct (Ascii.eqb a "."); [apply IH | reflexivity].
Qed.

Lemma has_stem_only_dots : forall p n,
  n <= String.length p ->
  Str.has_stem p 0 n = negb (only_dots (Str.slice_to n p)).
Proof.
  induction p as [| c p IH]; intros n Hn; simpl in Hn.
  - replace n with 0 by lia. reflexivity.
  - destruct n as [| n]; [reflexivity |]. simpl.
    destruct (Ascii.eqb c ".") eqn:Hc; simpl; [| reflexivity].
    rewrite has_stem_cons. apply IH. lia.
Qed.

Lemma splitext_fst image :
  Str.rindex "/" image = None ->
  fst (Str.splitext image)
  = if only_dots (fst (split_ext image)) then image
    else fst (split_ext image).
Proof.
  intros Hsep. unfold Str.splitext, Str.rfind. rewrite Hsep.
  destruct (Str.rindex "." image) as [i |] eqn:Hi.
  - rewrite (split_ext_some _ _ Hi).
    destruct (Z.ltb_spec (-1) (Z.of_nat i)) as [_ | H]; [| lia].
    change (Z.to_nat (-1 + 1)) with 0. rewrite Nat2Z.id, Nat.sub_0_r.
    rewrite has_stem_only_dots by (apply rindex_lt in Hi; lia).
    cbn [fst andb].
    destruct (only_dots (Str.slice_to i image)); reflexivity.
  - rewrite (split_ext_none _ Hi). simpl.
    destruct (only_dots image); reflexivity.
Qed.

(** X2: the program splits a name in two ways, with [split_ext] in
    [add_image] and with [os.path.splitext] in [get_defaults_entry].  For a
    name without a directory separator the two agree on the base name,
    unless the base name [split_ext] finds is empty or made of dots only:
    then [os.path.splitext] takes the whole name as the base name. *)
Theorem splitext_stem (image : string) :
  Str.rindex "/" image = None ->
  fst (Str.splitext image)
  = if only_dots (fst (split_ext image)) then image
    else fst (split_ext image).
Proof. apply splitext_fst. Qed.

Lemma splitext_stem_witness :
  Str.rindex "/" "..a.b" = None
  /\ fst (Str.splitext "..a.b")
     = if only_dots (fst (split_ext "..a.b")) then "..a.b"
       else fst (split_ext "..a.b").
Proof. split; [reflexivity | apply (splitext_stem "..a.b"); reflexivity]. Defined.

(** ** When the defaults lookup fails *)

Lemma prefix_refl s : String.prefix s s = true.
Proof.
  induction s as [| a s IH]; simpl; [reflexivity |].
  destruct (ascii_dec a a); [exact IH | congruence].
Qed.

Lemma get_length s : String.get (String.length s) s = None.
Proof. induction s as [| a s IH]; simpl; [reflexivity | exact IH]. Qed.

Lemma stem_first_skip name key obj rest :
  key <> name ->
  Str.startswith key (name +:+ ".") = false ->
  stem_first name ((key, obj) :: rest) <-> stem_first name rest.
Proof.
  intros Hkey Hpre. split.
  - intros ([| kv before] & o & after & Heq & Hall); simpl in Heq.
    + inversion Heq; subst. congruence.
    + inversion Heq; subst. inversion Hall; subst.
      exists before, o, after. auto.
  - intros (before & o & after & -> & Hall).
    exists ((key, obj) :: before), o, after. split; [reflexivity |].
    constructor; [split; assumption | assumption].
Qed.

Lemma stem_first_not name key obj rest :
  Str.startswith key (name +:+ ".") = true ->
  ~ stem_first name ((key, obj) :: rest).
Proof.
  unfold Str.startswith.
  intros Hpre ([| kv before] & o & after & Heq & Hall); simpl in Heq.
  - inversion Heq; subst. apply prefix_next in Hpre.
    destruct Hpre as [_ Hget]. rewrite get_length in Hget. discriminate.
  - inversion Heq; subst. inversion Hall as [| x l [_ Hno] Hrest]; subst.
    simpl in Hno. unfold Str.startswith in Hno. congruence.
Qed.

Lemma get_defaults_entry_loop_raises name : forall db,
  (get_defaults_entry_loop name db = Raise IndexError <-> stem_first name db)
  /\ forall e, get_defaults_entry_loop name db = Raise e -> e = IndexError.
Proof.
  induction db as [| [key obj] rest [IH IHe]]; simpl.
  - split; [| discriminate]. split; [discriminate |].
    intros ([| kv before] & o & after & Heq & _); discriminate Heq.
  - unfold Str.startswith.
    destruct (String.prefix name key) eqn:Hpre.
    + destruct (String.get (String.length name) key) as [c |] eqn:Hget.
      * destruct (Ascii.eqb c ".") eqn:Hc.
        -- apply Ascii.eqb_eq in Hc. subst c.
           split; [| discriminate]. split; [discriminate |].
           intros H. exfalso. revert H. apply stem_first_not.
           apply prefix_next. split; assumption.
        -- split; [| exact IHe]. rewrite IH. symmetry. apply stem_first_skip.
           ++ intros ->. rewrite get_length in Hget. discriminate.
           ++ unfold Str.startswith.
              destruct (String.prefix (name +:+ ".") key) eqn:Hp; [| reflexivity].
              apply prefix_next in Hp. destruct Hp as [_ Hg].
              rewrite Hget in Hg. inversion Hg; subst.
              rewrite Ascii.eqb_refl in Hc. discriminate.
      * split; [| intros e [= <-]; reflexivity].
        split; [intros _ | reflexivity].
        apply prefix_exact in Hget; [| exact Hpre]. subst key.
        exists [], obj, rest. split; [reflexivity | constructor].
    + split; [| exact IHe]. rewrite IH. symmetry. apply stem_first_skip.
      * intros ->. rewrite prefix_refl in Hpre. discriminate.
      * unfold Str.startswith.
        destruct (String.prefix (name +:+ ".") key) eqn:Hp; [| reflexivity].
        apply prefix_next in Hp. destruct Hp as [Hp _]. congruence.
Qed.

(** X3: [get_defaults_entry] raises [IndexError] exactly when the stem
    [os.path.splitext] finds for the image is itself a key of the catalogue
    and no key before it, in the order of the dict, is the stem followed by
    a dot and more; and it raises no other exception. *)
Theorem get_defaults_entry_raises (db : database) (image : string) :
  (get_defaults_entry db image = Raise IndexError
   <-> stem_first (fst (Str.splitext image)) db)
  /\ forall e, get_defaults_entry db image = Raise e -> e = IndexError.
Proof.
  unfold get_defaults_entry. destruct (Str.splitext image) as [name ext].
  apply get_defaults_entry_loop_raises.
Qed.

(** ** Asking until the answer is valid *)

Lemma told_nil w : told [] w = w.
Proof. destruct w. unfold told. simpl. rewrite app_nil_r. reflexivity. Qed.

Ltac decide_validator :=
  intros value w;
  cbv [is_valid_tags is_valid_title is_valid_author is_valid_license
       is_valid_language is_yes_no valid_tags valid_license valid_language
       yes_no anything bind print emit ret];
  repeat match goal with
         | |- context [if negb ?b then _ else _] => destruct b; cbn [negb andb]
         | |- context [if ?b then _ else _] => destruct b; cbn [negb andb]
         end;
  simpl;
  first [ exists []; rewrite told_nil; reflexivity
        | eexists [_]; reflexivity ].

Lemma decides_is_valid_tags : decides is_valid_tags valid_tags.
Proof. decide_validator. Qed.

Lemma decides_is_valid_title : decides is_valid_title anything.
Proof. decide_validator. Qed.

Lemma decides_is_valid_author : decides is_valid_author anything.
Proof. decide_validator. Qed.

Lemma decides_is_valid_license : decides is_valid_license valid_license.
Proof. decide_validator. Qed.

Lemma decides_is_valid_language : decides is_valid_language valid_language.
Proof. decide_validator. Qed.

Lemma decides_is_yes_no : decides is_yes_no yes_no.
Proof. decide_validator. Qed.

Lemma questions_told ls w : questions (told ls w) = questions w.
Proof.
  unfold questions, told. simpl. rewrite List.filter_app.
  replace (List.filter is_ask (map Print ls)) with (@nil event).
  - apply app_nil_r.
  - induction ls as [| l ls IH]; simpl; [reflexivity | exact IH].
Qed.

Lemma questions_printed l w : questions (printed l w) = questions w.
Proof. apply (questions_told [l] w). Qed.

Lemma questions_ask lines p s w :
  questions (World lines (trace w ++ [Ask p s]) (images_dir w) (data_json w))
  = (questions w ++ [Ask p s])%list.
Proof. unfold questions. simpl. rewrite List.filter_app. reflexivity. Qed.

Section GetValue.

Context (p : prompt) (is_valid : string -> M bool) (valid : string -> bool).
Hypothesis Hdecides : decides is_valid valid.

Lemma get_value_loop_first_valid good rest : forall bad value w fuel,
  (value :: stdin w = bad ++ good :: rest)%list ->
  Forall (fun x => valid x = false) bad ->
  valid good = true ->
  List.length bad <= fuel ->
  exists w',
    get_value_loop fuel p is_valid value w = (Ok (Str.strip good), w')
    /\ stdin w' = rest
    /\ questions w' = (questions w ++ map (Ask p) bad)%list.
Proof.
  induction bad as [| b bad IH]; intros value w fuel Hin Hbad Hgood Hfuel;
    rewrite get_value_loop_eq; unfold bind;
    destruct (Hdecides value w) as [ls ->]; simpl in Hin;
    inversion Hin; subst value.
  - rewrite Hgood. eexists. split; [reflexivity |].
    split; [unfold told; simpl; congruence |].
    rewrite questions_told, app_nil_r. reflexivity.
  - inversion Hbad as [| x l Hb Hbad']; subst x l. rewrite Hb.
    destruct fuel as [| fuel]; [simpl in Hfuel; lia |].
    unfold rlinput. simpl stdin.
    destruct (stdin w) as [| x lines] eqn:Hlines.
    { destruct bad; discriminate. }
    match goal with
    | |- context [get_value_loop fuel p is_valid x ?w2] =>
        destruct (IH x w2 fuel) as (w' & Hrun & Hrest & Hq);
        [simpl; congruence | assumption | assumption | simpl in Hfuel; lia |]
    end.
    exists w'. split; [exact Hrun |]. split; [exact Hrest |].
    rewrite Hq, (questions_ask lines p b (told ls w)), questions_told.
    rewrite <- app_assoc. reflexivity.
Qed.

Lemma get_value_loop_eof : forall lines value w fuel,
  stdin w = lines ->
  valid value = false ->
  Forall (fun x => valid x = false) lines ->
  List.length lines <= fuel ->
  exists w',
    get_value_loop fuel p is_valid value w = (Raise EOFError, w')
    /\ stdin w' = []
    /\ questions w'
       = (questions w ++ Ask p value :: map (Ask p) lines)%list.
Proof.
  induction lines as [| x lines IH];
    intros value w fuel Hin Hvalue Hlines Hfuel;
    rewrite get_value_loop_eq; unfold bind;
    destruct (Hdecides value w) as [ls ->]; rewrite Hvalue;
    unfold rlinput; simpl stdin; rewrite Hin.
  - eexists. split; [reflexivity |]. split; [reflexivity |].
    rewrite (questions_ask [] p value (told ls w)), questions_told.
    reflexivity.
  - inversion Hlines as [| y l Hx Hlines']; subst y l.
    destruct fuel as [| fuel]; [simpl in Hfuel; lia |].
    match goal with
    | |- context [get_value_loop fuel p is_valid x ?w2] =>
        destruct (IH x w2 fuel) as (w' & Hrun & Hrest & Hq);
        [reflexivity | assumption | assumption | simpl in Hfuel; lia |]
    end.
    exists w'. split; [exact Hrun |]. split; [exact Hrest |].
    rewrite Hq, (questions_ask lines p value (told ls w)), questions_told.
    rewrite <- app_assoc. reflexivity.
Qed.

Lemma get_value_loop_accepted : forall fuel value w v w',
  get_value_loop fuel p is_valid value w = (Ok v, w') ->
  exists x, valid x = true /\ v = Str.strip x.
Proof.
  induction fuel as [| fuel IH]; intros value w v w';
    rewrite get_value_loop_eq; unfold bind;
    destruct (Hdecides value w) as [ls ->];
    destruct (valid value) eqn:Hvalue.
  - intros [= <- _]. eauto.
  - unfold rlinput. destruct (stdin (told ls w)); discriminate.
  - intros [= <- _]. eauto.
  - unfold rlinput. destruct (stdin (told ls w)); [discriminate |].
    apply IH.
Qed.

(** A value [get_value] returns is a line the validator accepted,
    stripped. *)
Lemma get_value_accepted prefill w v w' :
  get_value p is_valid prefill w = (Ok v, w') ->
  exists x, valid x = true /\ v = Str.strip x.
Proof.
  unfold get_value, bind, rlinput, lines_left.
  destruct (stdin w); [discriminate |]. apply get_value_loop_accepted.
Qed.

Lemma get_value_run prefill w bad good rest :
  stdin w = (bad ++ good :: rest)%list ->
  Forall (fun x => valid x = false) bad ->
  valid good = true ->
  exists w',
    get_value p is_valid prefill w = (Ok (Str.strip good), w')
    /\ stdin w' = rest
    /\ questions w' = (questions w ++ Ask p prefill :: map (Ask p) bad)%list.
Proof.
  intros Hin Hbad Hgood.
  unfold get_value, bind, rlinput, lines_left.
  destruct (stdin w) as [| value lines] eqn:Hlines.
  { destruct bad; discriminate. }
  match goal with
  | |- context [get_value_loop _ p is_valid value ?w1] =>
      destruct (get_value_loop_first_valid good rest
                  bad value w1 (List.length (stdin w1)))
        as (w' & Hrun & Hrest & Hq);
      [exact Hin | exact Hbad | exact Hgood | |]
  end.
  - simpl. apply (f_equal List.length) in Hin.
    rewrite length_app in Hin. simpl in Hin. lia.
  - exists w'. split; [exact Hrun |]. split; [exact Hrest |].
    rewrite Hq, (questions_ask lines p prefill w), <- app_assoc. reflexivity.
Qed.

(** One valid line. *)
Lemma get_value_line prefill w good rest :
  stdin w = good :: rest ->
  valid good = true ->
  exists w',
    get_value p is_valid prefill w = (Ok (Str.strip good), w')
    /\ stdin w' = rest
    /\ questions w' = (questions w ++ [Ask p prefill])%list.
Proof.
  intros Hin Hgood.
  apply (get_value_run prefill w [] good rest Hin); [constructor | exact Hgood].
Qed.

End GetValue.

(** X4: [get_value] returns the first line the validator accepts, with the
    white space around it stripped, and leaves the lines after it unread.
    The question is put once with the prefill of the call, and once more
    for each line rejected before, with that line as the prefill, so that
    the operator edits what was typed.  The prefill of the call is not
    validated. *)
Theorem get_value_first_valid (p : prompt) (is_valid : string -> M bool)
    (valid : string -> bool) (prefill : string) (w : world)
    (bad : list string) (good : string) (rest : list string) :
  decides is_valid valid ->
  stdin w = (bad ++ good :: rest)%list ->
  Forall (fun x => valid x = false) bad ->
  valid good = true ->
  exists w',
    get_value p is_valid prefill w = (Ok (Str.strip good), w')
    /\ stdin w' = rest
    /\ questions w' = (questions w ++ Ask p prefill :: map (Ask p) bad)%list.
Proof. intros Hdecides. apply get_value_run, Hdecides. Qed.

Lemma get_value_first_valid_witness :
  let w := world0 [""; capital_word; padded_word; "x"] ∅ None in
  exists w',
    get_value AskTags is_valid_tags "" w = (Ok "abc", w')
    /\ stdin w' = ["x"]
    /\ questions w'
       = (questions w
          ++ Ask AskTags "" :: map (Ask AskTags) [""; capital_word])%list.
Proof.
  intros w.
  apply (get_value_first_valid AskTags is_valid_tags valid_tags "" w
           [""; capital_word] padded_word ["x"] decides_is_valid_tags eq_refl).
  - repeat constructor.
  - reflexivity.
Defined.

(** X5: when the operator's lines run out before the validator accepts
    one, [get_value] raises [EOFError], having read every line and put the
    question once for the prefill and once for each line. *)
Theorem get_value_eof (p : prompt) (is_valid : string -> M bool)
    (valid : string -> bool) (prefill : string) (w : world) :
  decides is_valid valid ->
  Forall (fun x => valid x = false) (stdin w) ->
  exists w',
    get_value p is_valid prefill w = (Raise EOFError, w')
    /\ stdin w' = []
    /\ questions w'
       = (questions w ++ Ask p prefill :: map (Ask p) (stdin w))%list.
Proof.
  intros Hdecides Hbad.
  unfold get_value, bind, rlinput, lines_left.
  destruct (stdin w) as [| value lines] eqn:Hlines.
  - eexists. split; [reflexivity |]. split; [reflexivity |].
    apply (questions_ask [] p prefill w).
  - inversion Hbad as [| x l Hvalue Hrest]; subst x l.
    match goal with
    | |- context [get_value_loop _ p is_valid value ?w1] =>
        destruct (get_value_loop_eof p is_valid valid Hdecides
                    lines value w1 (List.length (stdin w1)) eq_refl Hvalue Hrest)
          as (w' & Hrun & Hnil & Hq); [reflexivity |]
    end.
    exists w'. split; [exact Hrun |]. split; [exact Hnil |].
    rewrite Hq, (questions_ask lines p prefill w), <- app_assoc. reflexivity.
Qed.

Lemma get_value_eof_witness :
  let w := world0 ["MIT"; "gpl"] ∅ None in
  exists w',
    get_value AskLicense is_valid_license "" w = (Raise EOFError, w')
    /\ stdin w' = []
    /\ questions w'
       = (questions w
          ++ Ask AskLicense "" :: map (Ask AskLicense) ["MIT"; "gpl"])%list.
Proof.
  intros w.
  apply (get_value_eof AskLicense is_valid_license valid_license "" w
           decides_is_valid_license).
  repeat constructor.
Defined.

(** ** One call of the classifier *)

(** X6: a name without a dot, or with its last dot at the end, has no
    extension: [add_image] prints its header and the notice, returns 0 and
    leaves the catalogue as it is, without a question to the operator. *)
Theorem add_image_no_extension (i n : nat) (db : database) (image : string)
    (w : world) :
  Str.rindex "." image = None \/ (exists name, image = name +:+ ".") ->
  add_image i n db image w
  = (Ok (0, db), printed NoExtension (printed (Header i n image) w)).
Proof.
  intros Hshape.
  assert (Hsplit : snd (split_ext image) = "").
  { destruct Hshape as [Hno | [name ->]].
    - rewrite (split_ext_none _ Hno). reflexivity.
    - change (name +:+ ".") with (filename name "").
      rewrite split_ext_filename; reflexivity. }
  unfold add_image, bind, print, emit.
  destruct (split_ext image) as [name ext]. simpl in Hsplit. subst ext.
  reflexivity.
Qed.

Lemma add_image_no_extension_witness :
  (Str.rindex "." "README." = None \/ (exists name, "README." = name +:+ "."))
  /\ add_image 1 1 [] "README." (world0 [] ∅ None)
     = (Ok (0, []),
        printed NoExtension
          (printed (Header 1 1 "README.") (world0 [] ∅ None))).
Proof.
  assert (H : Str.rindex "." "README." = None
              \/ (exists name, "README." = name +:+ "."))
    by (right; exists "README"; reflexivity).
  split; [exact H |].
  exact (add_image_no_extension 1 1 [] "README." (world0 [] ∅ None) H).
Defined.

Lemma get_append_ext name ext key : forall db,
  Db.get key (Db.append_ext name ext db)
  = if String.eqb key name then option_map (with_ext ext) (Db.get name db)
    else Db.get key db.
Proof.
  induction db as [| [k obj] rest IH]; simpl.
  - destruct (String.eqb key name); reflexivity.
  - destruct (String.eqb_spec name k) as [-> | Hnk]; simpl.
    + destruct (String.eqb_spec key k) as [-> | Hkk]; reflexivity.
    + rewrite IH.
      destruct (String.eqb_spec key k) as [-> | Hkk]; [| reflexivity].
      destruct (String.eqb_spec k name) as [-> | _]; [congruence | reflexivity].
Qed.

(** X7: for every catalogue that has the base name of the image, and
    every image with an extension, [add_image] asks once whether to add the
    new type, showing the extensions of the entry.  On the answer [""] or
    [Y] it appends the extension to the entry of that name, prints "done"
    and returns 1; on [n] it prints "ignore" and returns 0 with the
    catalogue as it was.  The other fields of that entry, and every other
    entry, stay as they are. *)
Theorem add_image_new_type (i n : nat) (db : database)
    (image name ext : string) (obj : entry) (w : world) (answer : string)
    (rest : list string) :
  split_ext image = (name, ext) ->
  ext <> "" ->
  Db.get name db = Some obj ->
  stdin w = answer :: rest ->
  In answer [""; "Y"; "n"] ->
  let yes := negb (String.eqb answer "n") in
  let db' := if yes then Db.append_ext name ext db else db in
  add_image i n db image w
  = (Ok (if yes then 1 else 0, db'),
     World rest
       (trace w ++ [Print (Header i n image);
                    Ask (AskNewType (entry_exts obj) ext) "";
                    Print (if yes then Done else Ignore)])
       (images_dir w) (data_json w))
  /\ Db.get name db' = Some (if yes then with_ext ext obj else obj)
  /\ forall key, key <> name -> Db.get key db' = Db.get key db.
Proof.
  intros Hsplit Hext Hget Hin Hanswer yes db'. split; [| split].
  - unfold add_image, bind, print, emit. rewrite Hsplit.
    destruct (String.length ext =? 0)%nat eqn:Hlen.
    { destruct ext; [congruence | discriminate Hlen]. }
    rewrite Hget. unfold get_value, bind, rlinput, lines_left. simpl.
    rewrite Hin. subst yes db'.
    destruct rest; simpl in Hanswer;
      destruct Hanswer as [<- | [<- | [<- | []]]]; simpl;
      rewrite <- !app_assoc; reflexivity.
  - subst db'. destruct yes; [| exact Hget].
    rewrite get_append_ext, String.eqb_refl, Hget. reflexivity.
  - intros key Hkey. subst db'. destruct yes; [| reflexivity].
    rewrite get_append_ext.
    destruct (String.eqb_spec key name); [congruence | reflexivity].
Qed.

Lemma add_image_new_type_witness :
  let db := [("logo", plain "ccc" ["svg"]); ("photo", plain "x" ["jpg"])] in
  let w := world0 ["Y"; "n"] ∅ None in
  let db' := Db.append_ext "photo" "png" db in
  add_image 2 5 db "photo.png" w
  = (Ok (1, db'),
     World ["n"]
       (trace w ++ [Print (Header 2 5 "photo.png");
                    Ask (AskNewType ["jpg"] "png") "";
                    Print Done])
       (images_dir w) (data_json w))
  /\ Db.get "photo" db' = Some (with_ext "png" (plain "x" ["jpg"]))
  /\ forall key, key <> "photo" -> Db.get key db' = Db.get key db.
Proof.
  intros db w db'.
  apply (add_image_new_type 2 5 db "photo.png" "photo" "png"
           (plain "x" ["jpg"]) w "Y" ["n"]).
  - reflexivity.
  - discriminate.
  - reflexivity.
  - reflexivity.
  - simpl. auto.
Defined.

Lemma set_new name obj : forall db,
  Db.get name db = None -> Db.set name obj db = (db ++ [(name, obj)])%list.
Proof.
  induction db as [| [key old] rest IH]; simpl; [reflexivity |].
  destruct (String.eqb name key); [discriminate |].
  intros H. rewrite (IH H). reflexivity.
Qed.

(** X8: an image whose base name the catalogue lacks, when the operator
    types a valid line for each of the five fields and confirms with [""]
    or [Y].  [add_image] puts the six questions once each, the five fields
    prefilled with the values of the entry [get_defaults_entry] found (the
    empty string where it found none, or the entry lacks the key); it
    stores, at the end of the catalogue, an entry with the stripped tags,
    the extension of the image alone, and those of title, language, author
    and license that are not empty after stripping; and it returns 1. *)
Theorem add_image_new_name (i n : nat) (db : database)
    (image name ext : string) (default : option entry) (w : world)
    (tags title author license language answer : string)
    (rest : list string) :
  split_ext image = (name, ext) ->
  ext <> "" ->
  Db.get name db = None ->
  get_defaults_entry db image = Ok default ->
  stdin w = tags :: title :: author :: license :: language :: answer :: rest ->
  valid_tags tags = true ->
  valid_license license = true ->
  valid_language language = true ->
  answer = "" \/ answer = "Y" ->
  exists w',
    add_image i n db image w
    = (Ok (1, (db ++ [(name,
                       Entry (Str.strip tags) [ext]
                             (optional (Str.strip title))
                             (optional (Str.strip language))
                             (optional (Str.strip author))
                             (optional (Str.strip license)))])%list),
       w')
    /\ stdin w' = rest
    /\ questions w'
       = (questions w
          ++ [Ask AskTags (default_get (fun o => Some (entry_tags o)) default);
              Ask AskTitle (default_get entry_title default);
              Ask AskAuthor (default_get entry_author default);
              Ask AskLicense (default_get entry_license default);
              Ask AskLanguage (default_get entry_language default);
              Ask AskDone ""])%list.
Proof.
  intros Hsplit Hext Hget Hdefault Hin Htags Hlicense Hlanguage Hanswer.
  unfold add_image. rewrite Hsplit.
  destruct (String.length ext =? 0)%nat eqn:Hlen.
  { destruct ext; [congruence | discriminate Hlen]. }
  rewrite Hget, Hdefault.
  unfold bind at 1. unfold print at 1, emit at 1.
  fold (printed (Header i n image) w).
  set (w0 := printed (Header i n image) w).
  assert (Hin0 : stdin w0 = tags :: title :: author :: license :: language
                              :: answer :: rest) by exact Hin.
  assert (Hq0 : questions w0 = questions w) by apply questions_printed.
  unfold bind at 1, lift at 1. cbv zeta.
  unfold bind at 1, lines_left at 1.
  rewrite ask_fields_eq. cbn [f_tags f_title f_author f_license f_language].
  destruct (get_value_line AskTags _ _ decides_is_valid_tags
              (default_get (fun o => Some (entry_tags o)) default) w0 _ _
              Hin0 Htags) as (w1 & Hr1 & Hin1 & Hq1).
  destruct (get_value_line AskTitle _ _ decides_is_valid_title
              (default_get entry_title default) w1 _ _ Hin1 eq_refl)
    as (w2 & Hr2 & Hin2 & Hq2).
  destruct (get_value_line AskAuthor _ _ decides_is_valid_author
              (default_get entry_author default) w2 _ _ Hin2 eq_refl)
    as (w3 & Hr3 & Hin3 & Hq3).
  destruct (get_value_line AskLicense _ _ decides_is_valid_license
              (default_get entry_license default) w3 _ _ Hin3 Hlicense)
    as (w4 & Hr4 & Hin4 & Hq4).
  destruct (get_value_line AskLanguage _ _ decides_is_valid_language
              (default_get entry_language default) w4 _ _ Hin4 Hlanguage)
    as (w5 & Hr5 & Hin5 & Hq5).
  assert (Hyes : yes_no answer = true)
    by (destruct Hanswer as [-> | ->]; reflexivity).
  destruct (get_value_line AskDone _ _ decides_is_yes_no "" w5 _ _ Hin5 Hyes)
    as (w6 & Hr6 & Hin6 & Hq6).
  assert (Hstrip : Str.strip answer = answer)
    by (destruct Hanswer as [-> | ->]; reflexivity).
  rewrite Hstrip in Hr6.
  unfold bind at 1. unfold bind at 1. rewrite Hr1.
  unfold bind at 1. rewrite Hr2.
  unfold bind at 1. rewrite Hr3.
  unfold bind at 1. rewrite Hr4.
  unfold bind at 1. rewrite Hr5.
  unfold bind at 1. rewrite Hr6.
  replace (String.eqb answer "" || String.eqb answer "Y") with true
    by (destruct Hanswer as [-> | ->]; reflexivity).
  unfold ret at 1. cbn [f_tags f_title f_author f_license f_language].
  rewrite (set_new _ _ _ Hget).
  unfold bind, print, emit, ret.
  eexists. split; [reflexivity |]. split; [exact Hin6 |].
  match goal with
  | |- questions ?x = _ => change x with (printed Done w6)
  end.
  rewrite questions_printed, Hq6, Hq5, Hq4, Hq3, Hq2, Hq1, Hq0.
  rewrite <- !app_assoc. reflexivity.
Qed.

Lemma add_image_new_name_witness :
  let sibling := Entry "fairydust" ["png"] None (Some "german")
                       (Some "moba") None in
  let db := [("foo.small", sibling)] in
  let w := world0 ["fairydust"; "Fairy "; "moba"; ""; "german"; "Y"; "next"]
                  ∅ None in
  exists w',
    add_image 1 1 db "foo.jpg" w
    = (Ok (1, (db ++ [("foo",
                       Entry (Str.strip "fairydust") ["jpg"]
                             (optional (Str.strip "Fairy "))
                             (optional (Str.strip "german"))
                             (optional (Str.strip "moba"))
                             (optional (Str.strip "")))])%list),
       w')
    /\ stdin w' = ["next"]
    /\ questions w'
       = (questions w
          ++ [Ask AskTags
                (default_get (fun o => Some (entry_tags o)) (Some sibling));
              Ask AskTitle (default_get entry_title (Some sibling));
              Ask AskAuthor (default_get entry_author (Some sibling));
              Ask AskLicense (default_get entry_license (Some sibling));
              Ask AskLanguage (default_get entry_language (Some sibling));
              Ask AskDone ""])%list.
Proof.
  intros sibling db w.
  apply (add_image_new_name 1 1 db "foo.jpg" "foo" "jpg" (Some sibling) w
           "fairydust" "Fairy " "moba" "" "german" "Y" ["next"]);
    try reflexivity.
  - discriminate.
  - right. reflexivity.
Defined.

(** *** What the stored entry holds *)

Lemma lower_cons c s :
  Str.lower (String c s) = String c s ->
  Str.lower_char c = c /\ Str.lower s = s.
Proof. simpl. intros [= Hc Hs]. auto. Qed.

Lemma lower_lstrip s : Str.lower s = s -> Str.lower (Str.lstrip s) = Str.lstrip s.
Proof.
  induction s as [| c s IH]; [reflexivity |].
  intros H. destruct (lower_cons _ _ H) as [Hc Hs]. simpl Str.lstrip.
  destruct (Str.isspace c); [apply IH, Hs | exact H].
Qed.

Lemma lower_rstrip s : Str.lower s = s -> Str.lower (Str.rstrip s) = Str.rstrip s.
Proof.
  induction s as [| c s IH]; [reflexivity |].
  intros H. destruct (lower_cons _ _ H) as [Hc Hs]. specialize (IH Hs).
  simpl Str.rstrip. destruct (Str.rstrip s) as [| a r].
  - destruct (Str.isspace c); [reflexivity |]. simpl. rewrite Hc. reflexivity.
  - change (Str.lower (String c (String a r)))
      with (String (Str.lower_char c) (Str.lower (String a r))).
    rewrite Hc, IH. reflexivity.
Qed.

Lemma lower_strip s : Str.lower s = s -> Str.lower (Str.strip s) = Str.strip s.
Proof. intros H. apply lower_rstrip, lower_lstrip, H. Qed.

Lemma valid_tags_lower x :
  valid_tags x = true -> Str.lower (Str.strip x) = Str.strip x.
Proof.
  unfold valid_tags. intros H. apply andb_true_iff in H. destruct H as [_ H].
  apply lower_strip, String.eqb_eq, H.
Qed.

Lemma mem_In x xs : Str.mem x xs = true -> In x xs.
Proof.
  unfold Str.mem. intros H. apply existsb_exists in H.
  destruct H as (y & Hy & Heq). apply String.eqb_eq in Heq. subst y. exact Hy.
Qed.

Lemma valid_license_strip x :
  valid_license x = true -> In (Str.strip x) valid_licenses.
Proof.
  intros H. apply mem_In in H. simpl in H.
  destruct H as [<- | [<- | []]]; vm_compute; auto.
Qed.

Lemma valid_language_strip x :
  valid_language x = true -> In (Str.strip x) valid_languages.
Proof.
  intros H. apply mem_In in H. simpl in H.
  destruct H as [<- | [<- | [<- | [<- | [<- | []]]]]]; vm_compute; auto 6.
Qed.

Lemma ask_fields_valid : forall fuel v0 w v w',
  ask_fields fuel v0 w = (Ok v, w') ->
  Str.lower (f_tags v) = f_tags v
  /\ In (f_license v) valid_licenses
  /\ In (f_language v) valid_languages.
Proof.
  induction fuel as [| fuel IH]; intros v0 w v w'; rewrite ask_fields_eq;
    intros H;
    apply bind_ok in H; destruct H as (tags & w1 & Htags & H);
    apply bind_ok in H; destruct H as (title & w2 & _ & H);
    apply bind_ok in H; destruct H as (author & w3 & _ & H);
    apply bind_ok in H; destruct H as (license & w4 & Hlicense & H);
    apply bind_ok in H; destruct H as (language & w5 & Hlanguage & H);
    apply bind_ok in H; destruct H as (answer & w6 & _ & H);
    (destruct (String.eqb answer "" || String.eqb answer "Y");
     [| first [discriminate H | exact (IH _ _ _ _ H)]]);
    inversion H; subst; cbn [f_tags f_license f_language];
    apply (get_value_accepted _ _ _ decides_is_valid_tags) in Htags;
    apply (get_value_accepted _ _ _ decides_is_valid_license) in Hlicense;
    apply (get_value_accepted _ _ _ decides_is_valid_language) in Hlanguage;
    destruct Htags as (x1 & Hx1 & ->), Hlicense as (x2 & Hx2 & ->),
             Hlanguage as (x3 & Hx3 & ->);
    repeat split;
    auto using valid_tags_lower, valid_license_strip, valid_language_strip.
Qed.

Lemma optional_Some value l :
  optional value = Some l -> l = value /\ value <> "".
Proof.
  unfold optional. destruct value; simpl; [discriminate |].
  intros [= <-]. split; [reflexivity | discriminate].
Qed.

(** X9: whatever the operator types, an entry that [add_image] stores for
    a base name the catalogue lacks goes to the end of the catalogue, has
    the extension of the image as its only extension and tags without an
    upper-case letter; a license, when it has one, is [CC0-1.0], a language
    one of the four valid ones, and a title or an author is not the empty
    string.  The call then returns 1. *)
Theorem add_image_new_entry (i n : nat) (db : database)
    (image name ext : string) (w : world) (c : nat) (db' : database)
    (w' : world) :
  split_ext image = (name, ext) ->
  ext <> "" ->
  Db.get name db = None ->
  add_image i n db image w = (Ok (c, db'), w') ->
  exists obj,
    c = 1 /\ db' = (db ++ [(name, obj)])%list
    /\ entry_exts obj = [ext]
    /\ Str.lower (entry_tags obj) = entry_tags obj
    /\ (forall l, entry_license obj = Some l -> l = "CC0-1.0")
    /\ (forall l, entry_language obj = Some l ->
                  In l ["dutch"; "english"; "french"; "german"])
    /\ entry_title obj <> Some "" /\ entry_author obj <> Some "".
Proof.
  intros Hsplit Hext Hget H. unfold add_image in H.
  apply bind_ok in H. destruct H as (u & w1 & _ & H).
  rewrite Hsplit in H.
  destruct (String.length ext =? 0)%nat eqn:Hlen.
  { destruct ext; [congruence | discriminate Hlen]. }
  rewrite Hget in H.
  apply bind_ok in H. destruct H as (d & w2 & _ & H). cbv zeta in H.
  apply bind_ok in H. destruct H as (fuel & w3 & _ & H).
  apply bind_ok in H. destruct H as (v & w4 & Hv & H). cbv zeta in H.
  apply bind_ok in H. destruct H as (u5 & w5 & _ & H).
  inversion H; subst c db' w'. clear H.
  apply ask_fields_valid in Hv. destruct Hv as (Htags & Hlicense & Hlanguage).
  eexists. split; [reflexivity |]. split; [apply set_new, Hget |].
  simpl. split; [reflexivity |]. split; [exact Htags |].
  repeat split.
  - intros l Hl. apply optional_Some in Hl. destruct Hl as [-> Hne].
    simpl in Hlicense. destruct Hlicense as [He | [He | []]]; congruence.
  - intros l Hl. apply optional_Some in Hl. destruct Hl as [-> Hne].
    simpl in Hlanguage. simpl.
    destruct Hlanguage as [He | Hlanguage]; [congruence | exact Hlanguage].
  - intros Hl. apply optional_Some in Hl. destruct Hl as [He Hne]. congruence.
  - intros Hl. apply optional_Some in Hl. destruct Hl as [He Hne]. congruence.
Qed.

Lemma add_image_new_entry_witness :
  let obj := Entry "cat" ["png"] (Some "My cat") (Some "german") None
                   (Some "CC0-1.0") in
  exists obj',
    1 = 1 /\ [("a", obj)] = ([] ++ [("a", obj')])%list
    /\ entry_exts obj' = ["png"]
    /\ Str.lower (entry_tags obj') = entry_tags obj'
    /\ (forall l, entry_license obj' = Some l -> l = "CC0-1.0")
    /\ (forall l, entry_language obj' = Some l ->
                  In l ["dutch"; "english"; "french"; "german"])
    /\ entry_title obj' <> Some "" /\ entry_author obj' <> Some "".
Proof.
  intros obj.
  apply (add_image_new_entry 1 1 [] "a.png" "a" "png"
           (world0 [" cat"; "My cat"; ""; "MIT"; "CC0-1.0"; "german"; ""]
                   ∅ None)
           1 [("a", obj)]
           (snd (add_image 1 1 [] "a.png"
                   (world0 [" cat"; "My cat"; ""; "MIT"; "CC0-1.0"; "german"; ""]
                           ∅ None)))).
  - reflexivity.
  - discriminate.
  - reflexivity.
  - vm_compute. reflexivity.
Defined.

(** *** The expansion of the catalogue *)

(** X10: [get_db_set] builds the set of the names "{name}.{ext}", one for
    each entry of the catalogue and each extension in its list, and nothing
    else: an entry with an empty list adds no name. *)
Theorem get_db_set_spec (db : database) (f : string) :
  f ∈ get_db_set db
  <-> exists key obj ext,
        In (key, obj) db /\ In ext (entry_exts obj) /\ f = filename key ext.
Proof. apply elem_of_get_db_set. Qed.

Lemma elem_of_get_db_set_cons key obj rest x :
  x ∈ get_db_set ((key, obj) :: rest)
  <-> (exists ext, In ext (entry_exts obj) /\ x = filename key ext)
      \/ x ∈ get_db_set rest.
Proof.
  rewrite !elem_of_get_db_set. split.
  - intros (k & o & e & [Heq | Hin] & He & ->).
    + inversion Heq; subst. left. eauto.
    + right. exists k, o, e. auto.
  - intros [(e & He & ->) | (k & o & e & Hin & He & ->)].
    + exists key, obj, e. simpl. auto.
    + exists k, o, e. simpl. auto.
Qed.

Lemma elem_of_append_ext name ext x : forall db obj,
  Db.get name db = Some obj ->
  x ∈ get_db_set (Db.append_ext name ext db)
  <-> x ∈ get_db_set db \/ x = filename name ext.
Proof.
  induction db as [| [key old] rest IH]; intros obj; simpl; [discriminate |].
  destruct (String.eqb name key) eqn:Heq.
  - apply String.eqb_eq in Heq. subst key. intros _.
    rewrite !elem_of_get_db_set_cons. simpl. split.
    + intros [(e & He & ->) | H]; [| auto].
      apply in_app_or in He. destruct He as [He | [<- | []]]; eauto.
    + intros [[(e & He & ->) | H] | ->]; [| auto |].
      * left. exists e. split; [apply in_or_app; auto | reflexivity].
      * left. exists ext. split; [apply in_or_app; simpl; auto | reflexivity].
  - intros Hget. rewrite !elem_of_get_db_set_cons, (IH obj Hget). tauto.
Qed.

Lemma elem_of_set_new name obj ext x db :
  Db.get name db = None ->
  entry_exts obj = [ext] ->
  x ∈ get_db_set (Db.set name obj db)
  <-> x ∈ get_db_set db \/ x = filename name ext.
Proof.
  intros Hget Hexts. rewrite (set_new _ _ _ Hget), !elem_of_get_db_set. split.
  - intros (k & o & e & Hin & He & ->). apply in_app_or in Hin.
    destruct Hin as [Hin | [Heq | []]].
    + left. exists k, o, e. auto.
    + inversion Heq; subst. rewrite Hexts in He. destruct He as [<- | []].
      auto.
  - intros [(k & o & e & Hin & He & ->) | ->].
    + exists k, o, e. split; [apply in_or_app; auto | auto].
    + exists name, obj, ext. split; [apply in_or_app; simpl; auto |].
      rewrite Hexts. simpl. auto.
Qed.

(** What a step of the classification does to the expansion. *)
Lemma add_step_expansion image db c db' :
  add_step image db c db' ->
  (c = 0 /\ db' = db)
  \/ (c = 1 /\ get_db_set db' = get_db_set db ∪ {[ image ]}).
Proof.
  intros [| name ext obj Hsplit Hext Hget | name ext obj Hsplit Hext Hget Hobj].
  - left. auto.
  - right. split; [reflexivity |].
    pose proof (filename_split_ext image) as Hf. rewrite Hsplit in Hf.
    specialize (Hf Hext). simpl in Hf.
    apply set_eq. intros x.
    rewrite (elem_of_append_ext _ _ _ _ _ Hget), elem_of_union,
      elem_of_singleton, Hf. reflexivity.
  - right. split; [reflexivity |].
    pose proof (filename_split_ext image) as Hf. rewrite Hsplit in Hf.
    specialize (Hf Hext). simpl in Hf.
    apply set_eq. intros x.
    rewrite (elem_of_set_new _ _ _ _ _ Hget Hobj), elem_of_union,
      elem_of_singleton, Hf. reflexivity.
Qed.

(** X11: a call of [add_image] that returns does one of two things.  It
    returns 0 and the catalogue is the one it was given; or it returns 1
    and the files the catalogue stands for are those it stood for before
    and the image, no other. *)
Theorem add_image_expansion (i n : nat) (db : database) (image : string)
    (w : world) (c : nat) (db' : database) (w' : world) :
  add_image i n db image w = (Ok (c, db'), w') ->
  (c = 0 /\ db' = db)
  \/ (c = 1 /\ get_db_set db' = get_db_set db ∪ {[ image ]}).
Proof. intros H. eapply add_step_expansion, add_image_step, H. Qed.

Lemma add_image_expansion_witness :
  (1 = 0 /\ [("photo", plain "x" ["jpg"; "png"])] = photo_db)
  \/ (1 = 1
      /\ get_db_set [("photo", plain "x" ["jpg"; "png"])]
         = get_db_set photo_db ∪ {[ "photo.png" ]}).
Proof.
  apply (add_image_expansion 1 1 photo_db "photo.png" (world0 ["Y"] ∅ None) 1
           [("photo", plain "x" ["jpg"; "png"])]
           (snd (add_image 1 1 photo_db "photo.png" (world0 ["Y"] ∅ None)))).
  vm_compute. reflexivity.
Defined.

(** *** The exceptions of the classifier *)

Lemma raises_only_bind {A B} (E : exn -> Prop) (m : M A) (k : A -> M B) :
  raises_only E m -> (forall a, raises_only E (k a)) ->
  raises_only E (bind m k).
Proof.
  intros Hm Hk w e w' H. apply bind_cases in H.
  destruct H as [(a & w1 & _ & H) | [(e' & H & Heq) | [_ Heq]]].
  - exact (Hk a _ _ _ H).
  - inversion Heq; subst e'. exact (Hm _ _ _ H).
  - discriminate Heq.
Qed.

Lemma raises_only_weaken {A} (E E' : exn -> Prop) (m : M A) :
  (forall e, E e -> E' e) -> raises_only E m -> raises_only E' m.
Proof. intros Hsub Hm w e w' H. apply Hsub. exact (Hm _ _ _ H). Qed.

Lemma raises_only_ret {A} (E : exn -> Prop) (a : A) : raises_only E (ret a).
Proof. intros w e w' H. discriminate H. Qed.

Lemma raises_only_print (E : exn -> Prop) l : raises_only E (print l).
Proof. intros w e w' H. discriminate H. Qed.

Lemma raises_only_lines_left (E : exn -> Prop) : raises_only E lines_left.
Proof. intros w e w' H. discriminate H. Qed.

Lemma raises_only_out_of_fuel {A} (E : exn -> Prop) :
  raises_only E (@out_of_fuel A).
Proof. intros w e w' H. discriminate H. Qed.

Lemma raises_only_rlinput p s : raises_only eof (rlinput p s).
Proof.
  intros w e w' H. unfold rlinput in H.
  destruct (stdin w); inversion H. reflexivity.
Qed.

Lemma raises_only_decides is_valid valid value :
  decides is_valid valid -> raises_only eof (is_valid value).
Proof. intros Hd w e w' H. destruct (Hd value w) as [ls Hv]. congruence. Qed.

Lemma raises_only_get_value_loop p is_valid valid :
  decides is_valid valid ->
  forall fuel value, raises_only eof (get_value_loop fuel p is_valid value).
Proof.
  intros Hd. induction fuel as [| fuel IH]; intros value;
    rewrite get_value_loop_eq;
    (apply raises_only_bind;
     [eapply raises_only_decides, Hd | intros [|]; [apply raises_only_ret |]]);
    (apply raises_only_bind; [apply raises_only_rlinput | intros value']).
  - apply raises_only_out_of_fuel.
  - apply IH.
Qed.

Lemma raises_only_get_value p is_valid valid prefill :
  decides is_valid valid -> raises_only eof (get_value p is_valid prefill).
Proof.
  intros Hd. unfold get_value.
  apply raises_only_bind; [apply raises_only_rlinput | intros value].
  apply raises_only_bind; [apply raises_only_lines_left | intros fuel].
  eapply raises_only_get_value_loop, Hd.
Qed.

Lemma raises_only_ask_fields : forall fuel v, raises_only eof (ask_fields fuel v).
Proof.
  induction fuel as [| fuel IH]; intros v; rewrite ask_fields_eq;
    (apply raises_only_bind;
     [eapply raises_only_get_value, decides_is_valid_tags | intros tags]);
    (apply raises_only_bind;
     [eapply raises_only_get_value, decides_is_valid_title | intros title]);
    (apply raises_only_bind;
     [eapply raises_only_get_value, decides_is_valid_author | intros author]);
    (apply raises_only_bind;
     [eapply raises_only_get_value, decides_is_valid_license | intros license]);
    (apply raises_only_bind;
     [eapply raises_only_get_value, decides_is_valid_language
     | intros language]);
    (apply raises_only_bind;
     [eapply raises_only_get_value, decides_is_yes_no | intros answer]);
    (destruct (String.eqb answer "" || String.eqb answer "Y");
     [apply raises_only_ret |]).
  - apply raises_only_out_of_fuel.
  - apply IH.
Qed.

Lemma add_image_raise_cases i n db image :
  raises_only
    (fun e => e = EOFError
              \/ (e = IndexError
                  /\ Db.get (fst (split_ext image)) db = None
                  /\ stem_first (fst (Str.splitext image)) db))
    (add_image i n db image).
Proof.
  unfold add_image.
  apply raises_only_bind; [apply raises_only_print | intros _].
  destruct (split_ext image) as [name ext]. simpl fst.
  destruct (String.length ext =? 0)%nat.
  { apply raises_only_bind; [apply raises_only_print | intros _].
    apply raises_only_ret. }
  destruct (Db.get name db) as [obj |] eqn:Hget.
  - apply raises_only_bind.
    { eapply raises_only_weaken; [intros e He; left; exact He |].
      eapply raises_only_get_value, decides_is_yes_no. }
    intros answer.
    destruct (String.eqb answer "" || String.eqb answer "Y"); cbv zeta;
      (apply raises_only_bind; [apply raises_only_print | intros _]);
      apply raises_only_ret.
  - apply raises_only_bind.
    { intros w e w' H. unfold lift in H. inversion H as [[Hraise Hw]].
      right. unfold get_defaults_entry in Hraise |- *.
      destruct (Str.splitext image) as [stem e0]. simpl fst.
      destruct (get_defaults_entry_loop_raises stem db) as [Hiff Honly].
      assert (e = IndexError) by (apply Honly; exact Hraise). subst e.
      split; [reflexivity |]. split; [reflexivity |].
      apply Hiff, Hraise. }
    intros d. cbv zeta.
    apply raises_only_bind; [apply raises_only_lines_left | intros fuel].
    apply raises_only_bind.
    { eapply raises_only_weaken;
        [intros e He; left; exact He | apply raises_only_ask_fields]. }
    intros v. cbv zeta.
    apply raises_only_bind; [apply raises_only_print | intros _].
    apply raises_only_ret.
Qed.

(** X12: [add_image] raises two exceptions only.  [EOFError], when the
    operator's lines run out; and [IndexError], which comes from
    [get_defaults_entry] and only for an image whose base name the
    catalogue lacks while the stem [os.path.splitext] finds is a key of the
    catalogue that comes before every key that extends it. *)
Theorem add_image_raises (i n : nat) (db : database) (image : string)
    (w w' : world) (e : exn) :
  add_image i n db image w = (Raise e, w') ->
  e = EOFError
  \/ (e = IndexError
      /\ Db.get (fst (split_ext image)) db = None
      /\ stem_first (fst (Str.splitext image)) db).
Proof. apply add_image_raise_cases. Qed.

Lemma add_image_raises_witness :
  let db := [(".hidden", plain "x" ["png"])] in
  IndexError = EOFError
  \/ (IndexError = IndexError
      /\ Db.get (fst (split_ext ".hidden")) db = None
      /\ stem_first (fst (Str.splitext ".hidden")) db).
Proof.
  intros db.
  apply (add_image_raises 1 1 db ".hidden" (world0 [] ∅ None)
           (snd (add_image 1 1 db ".hidden" (world0 [] ∅ None))) IndexError).
  vm_compute. reflexivity.
Defined.

Lemma get_None_not_In name : forall db obj,
  Db.get name db = None -> ~ In (name, obj) db.
Proof.
  induction db as [| [key old] rest IH]; intros obj; simpl; [tauto |].
  destruct (String.eqb_spec name key) as [-> | Hne]; [discriminate |].
  intros Hget [Heq | Hin]; [inversion Heq; congruence | exact (IH _ Hget Hin)].
Qed.

(** X13: for a name without a directory separator whose base name, as
    [split_ext] finds it, has a character other than the dot, the two
    splits agree, and [add_image] raises nothing but [EOFError]: the
    [IndexError] of the defaults lookup is confined to names such as
    [.hidden]. *)
Theorem add_image_plain_name_raises (i n : nat) (db : database)
    (image : string) (w w' : world) (e : exn) :
  Str.rindex "/" image = None ->
  only_dots (fst (split_ext image)) = false ->
  add_image i n db image w = (Raise e, w') ->
  e = EOFError.
Proof.
  intros Hsep Hstem H. apply add_image_raise_cases in H.
  destruct H as [H | (_ & Hget & before & obj & after & Hdb & _)];
    [exact H | exfalso].
  rewrite (splitext_fst image Hsep), Hstem in Hdb.
  apply (get_None_not_In _ _ obj Hget). rewrite Hdb.
  apply in_or_app. right. left. reflexivity.
Qed.

Lemma add_image_plain_name_raises_witness :
  let db := [("a.small", plain "x" ["jpg"])] in
  let w := world0 ["Maybe"] ∅ None in
  Str.rindex "/" "a.png" = None
  /\ only_dots (fst (split_ext "a.png")) = false
  /\ add_image 1 1 db "a.png" w
     = (Raise EOFError, snd (add_image 1 1 db "a.png" w))
  /\ EOFError = EOFError.
Proof.
  intros db w.
  assert (Hrun : add_image 1 1 db "a.png" w
                 = (Raise EOFError, snd (add_image 1 1 db "a.png" w)))
    by (vm_compute; reflexivity).
  split; [reflexivity |]. split; [reflexivity |]. split; [exact Hrun |].
  exact (add_image_plain_name_raises 1 1 db "a.png" w _ EOFError
           eq_refl eq_refl Hrun).
Defined.

(** ** A whole run *)

(** *** The extensions stay plain *)

Lemma split_ext_plain image name ext :
  split_ext image = (name, ext) -> ext <> "" -> plain_ext ext.
Proof.
  intros Hsplit Hext. split; [exact Hext |].
  eapply split_ext_no_dot, Hsplit.
Qed.

Lemma plain_exts_append_ext name ext : forall db,
  plain_ext ext -> plain_exts db -> plain_exts (Db.append_ext name ext db).
Proof.
  intros db Hext. unfold plain_exts.
  induction db as [| [key obj] rest IH]; intros Hdb; simpl; [constructor |].
  inversion Hdb as [| kv l Hobj Hrest]; subst kv l. simpl in Hobj.
  destruct (String.eqb name key).
  - constructor; [| exact Hrest]. simpl.
    apply List.Forall_app. split; [exact Hobj |].
    constructor; [exact Hext | constructor].
  - constructor; [exact Hobj | apply IH, Hrest].
Qed.

Lemma plain_exts_set name obj : forall db,
  Forall plain_ext (entry_exts obj) -> plain_exts db ->
  plain_exts (Db.set name obj db).
Proof.
  intros db Hobj. unfold plain_exts.
  induction db as [| [key old] rest IH]; intros Hdb; simpl.
  - constructor; [exact Hobj | constructor].
  - inversion Hdb as [| kv l Hold Hrest]; subst kv l.
    destruct (String.eqb name key).
    + constructor; [exact Hobj | exact Hrest].
    + constructor; [exact Hold | apply IH, Hrest].
Qed.

Lemma plain_exts_step image db c db' :
  add_step image db c db' -> plain_exts db -> plain_exts db'.
Proof.
  intros [| name ext obj Hsplit Hext Hget | name ext obj Hsplit Hext Hget Hobj]
    Hdb.
  - exact Hdb.
  - apply plain_exts_append_ext; [| exact Hdb].
    eapply split_ext_plain; eassumption.
  - apply plain_exts_set; [| exact Hdb]. rewrite Hobj.
    constructor; [| constructor]. eapply split_ext_plain; eassumption.
Qed.

Lemma add_images_plain_exts n images : forall db i count w count' db' w',
  plain_exts db ->
  add_images n db i count images w = (Ok (count', db'), w') ->
  plain_exts db'.
Proof.
  induction images as [| image rest IH];
    intros db i count w count' db' w' Hdb H; simpl in H.
  - inversion H; subst. exact Hdb.
  - apply bind_ok in H. destruct H as ([added db1] & w1 & Hadd & H).
    apply add_image_step in Hadd.
    eapply IH; [| exact H]. eapply plain_exts_step; eassumption.
Qed.

(** X14: if every extension of the catalogue that is loaded is not empty
    and holds no dot, then so is every extension of the catalogue that
    [data.json] holds after the run, however the run ends: the extensions
    [add_image] stores come from [split_ext], which gives such ones. *)
Theorem plain_exts_stay (iter : gset string -> list string)
    (sha1 : string -> string) (w w' : world) (db : database)
    (r : result unit) :
  data_json w = Some db ->
  plain_exts db ->
  main iter sha1 w = (r, w') ->
  exists db', data_json w' = Some db' /\ plain_exts db'.
Proof.
  intros Hdb Hplain Hrun.
  destruct (main_run iter sha1 w db r w' Hdb Hrun)
    as [[Hsame _] | (count & db' & w1 & w2 & Hadd & Hwritten & _)].
  - exists db. auto.
  - exists (sort_keys db'). split; [exact Hwritten |].
    apply sort_keys_Forall. eapply add_images_plain_exts; eassumption.
Qed.

Lemma plain_exts_stay_witness :
  let w := photo_png_world in
  let w' := snd (main elements plain_digest w) in
  plain_exts photo_db
  /\ main elements plain_digest w = (Ok tt, w')
  /\ exists db', data_json w' = Some db' /\ plain_exts db'.
Proof.
  intros w w'.
  assert (Hplain : plain_exts photo_db).
  { repeat constructor; discriminate. }
  assert (Hrun : main elements plain_digest w = (Ok tt, w'))
    by (vm_compute; reflexivity).
  split; [exact Hplain |]. split; [exact Hrun |].
  exact (plain_exts_stay elements plain_digest w w' photo_db (Ok tt)
           eq_refl Hplain Hrun).
Defined.

(** *** Declining to start *)

(** X15: with new images in [images/], the answer [n] to the question
    whether to start ends the run at once: [main] has put that one
    question, with the number of new images, and has read that one line;
    it classifies nothing and does not write [data.json]. *)
Theorem main_declined (iter : gset string -> list string)
    (sha1 : string -> string) (w : world) (db : database)
    (rest : list string) :
  (forall X : gset string, iter X ≡ₚ elements X) ->
  data_json w = Some db ->
  new_images db (dom (images_dir w)) <> ∅ ->
  stdin w = "n" :: rest ->
  main iter sha1 w
  = (Ok tt, started (size (new_images db (dom (images_dir w)))) rest w).
Proof.
  intros Hiter Hdb Hnew Hin.
  unfold main, main_with, bind, get_database, get_image_set.
  rewrite Hdb. simpl.
  rewrite (check_duplicate_images_quiet iter sha1 _ w Hiter).
  destruct (Nat.eqb_spec (size (new_images db (dom (images_dir w)))) 0)
    as [Hzero | _].
  { exfalso. apply Hnew. apply size_empty_iff in Hzero.
    apply leibniz_equiv, Hzero. }
  unfold input, rlinput. rewrite Hin. reflexivity.
Qed.

Lemma main_declined_witness :
  let w := world0 ["n"; "later"]
             {[ "photo.jpg" := "jpeg bytes"; "photo.png" := "png bytes" ]}
             (Some photo_db) in
  new_images photo_db (dom (images_dir w)) <> ∅
  /\ main elements plain_digest w
     = (Ok tt,
        started (size (new_images photo_db (dom (images_dir w)))) ["later"] w).
Proof.
  intros w.
  assert (Hnew : new_images photo_db (dom (images_dir w)) <> ∅).
  { intros H. apply (f_equal size) in H. vm_compute in H. discriminate H. }
  split; [exact Hnew |].
  exact (main_declined elements plain_digest w photo_db ["later"]
           (fun X => reflexivity (elements X)) eq_refl Hnew eq_refl).
Defined.

(** *** A run that fails *)

Lemma add_images_images_dir n images : forall db i count w r w',
  add_images n db i count images w = (r, w') -> images_dir w' = images_dir w.
Proof.
  induction images as [| image rest IH]; intros db i count w r w' H;
    simpl in H.
  - inversion H. reflexivity.
  - assert (Hone : forall r1 w1, add_image (i + 1) n db image w = (r1, w1) ->
                                  images_dir w1 = images_dir w).
    { intros r1 w1 H1.
      apply (classify_after_header nothing images_dir blind_images_dir
               (fun _ _ => eq_refl) nothing_plain _ _ _ _ _ _ _ H1). }
    apply bind_cases in H.
    destruct H as [([added db1] & w1 & Hadd & H) | [(e & Hadd & _) | [Hadd _]]].
    + rewrite (IH _ _ _ _ _ _ H). eapply Hone, Hadd.
    + eapply Hone, Hadd.
    + eapply Hone, Hadd.
Qed.

(** No run touches [images/]. *)
Lemma main_images_dir iter sha1 :
  preserves (keeps images_dir) (main iter sha1).
Proof.
  pose proof blind_images_dir as Hblind.
  assert (Hask : forall p s, nothing (Ask p s) = false) by reflexivity.
  unfold main, main_with.
  apply preserves_bind; [apply _ | apply preserves_get_database; apply _ |].
  intros db.
  apply preserves_bind; [apply _ | apply preserves_get_image_set; apply _ |].
  intros images. cbv zeta.
  apply preserves_bind;
    [apply _
    | apply (quiet_check_duplicate_images nothing images_dir Hblind
               nothing_plain)
    |].
  intros dup. destruct dup.
  { apply (quiet_print nothing images_dir Hblind nothing_plain). exact I. }
  destruct (size _ =? 0)%nat.
  { apply (quiet_print nothing images_dir Hblind nothing_plain). exact I. }
  apply preserves_bind;
    [apply _ | apply (quiet_input nothing images_dir Hblind Hask) |].
  intros answer. destruct (String.eqb answer "n").
  { apply preserves_ret. apply _. }
  apply preserves_bind; [apply _ | |].
  { intros w r w' H. apply add_images_images_dir in H. exact H. }
  intros [count d].
  apply preserves_bind; [apply _ | |].
  { intros w r w' H. inversion H. reflexivity. }
  intros _. apply (quiet_print nothing images_dir Hblind nothing_plain).
  exact I.
Qed.

(** X16: a run of [main] that ends in an exception has written nothing.
    [data.json] holds what it held, no write was begun, and [images/] is
    untouched: what the operator entered for the images classified before
    the exception is lost, since the one write of a run comes after the
    loop. *)
Theorem main_raise_writes_nothing (iter : gset string -> list string)
    (sha1 : string -> string) (w w' : world) (e : exn) :
  main iter sha1 w = (Raise e, w') ->
  data_json w' = data_json w
  /\ images_dir w' = images_dir w
  /\ forall d, In (Dump d) (trace w') -> In (Dump d) (trace w).
Proof.
  intros Hrun. split; [| split; [exact (main_images_dir _ _ _ _ _ Hrun) |]].
  - destruct (data_json w) as [db |] eqn:Hdb.
    + destruct (main_run iter sha1 w db _ w' Hdb Hrun)
        as [[Hsame _] | (count & db' & w1 & w2 & _ & _ & _ & Hok)];
        [exact Hsame | discriminate Hok].
    + unfold main, main_with, bind, get_database in Hrun. rewrite Hdb in Hrun.
      inversion Hrun; subst. exact Hdb.
  - destruct (data_json w) as [db |] eqn:Hdb.
    + destruct (main_run iter sha1 w db _ w' Hdb Hrun)
        as [[_ [k Hk]] | (count & db' & w1 & w2 & _ & _ & _ & Hok)];
        [| discriminate Hok].
      intros d Hd.
      assert (Hmark : In (Dump d) (milestones w')).
      { unfold milestones. apply List.filter_In. split; [exact Hd | reflexivity]. }
      rewrite Hk in Hmark. apply in_app_or in Hmark.
      destruct Hmark as [Hmark | Hmark].
      * unfold milestones in Hmark. apply List.filter_In in Hmark. tauto.
      * exfalso. exact (headers_from_no_dump _ _ _ _ Hmark).
    + unfold main, main_with, bind, get_database in Hrun. rewrite Hdb in Hrun.
      inversion Hrun; subst. auto.
Qed.

Lemma main_raise_writes_nothing_witness :
  let w := world0 [""; "t"] {[ "a.png" := "first" ]} (Some []) in
  let w' := snd (main elements plain_digest w) in
  main elements plain_digest w = (Raise EOFError, w')
  /\ data_json w' = data_json w
  /\ images_dir w' = images_dir w
  /\ forall d, In (Dump d) (trace w') -> In (Dump d) (trace w).
Proof.
  intros w w'.
  assert (Hrun : main elements plain_digest w = (Raise EOFError, w'))
    by (vm_compute; reflexivity).
  split; [exact Hrun |].
  exact (main_raise_writes_nothing elements plain_digest w w' EOFError Hrun).
Defined.

(** *** A run that writes *)

(** The three ways in which [main] returns. *)
Lemma main_returns iter sha1 w db w' :
  data_json w = Some db ->
  main iter sha1 w = (Ok tt, w') ->
  let new := new_images db (dom (images_dir w)) in
  (size new = 0 /\ w' = printed (NoNewImages (size (get_db_set db))) w)
  \/ (size new <> 0
      /\ exists rest, stdin w = "n" :: rest /\ w' = started (size new) rest w)
  \/ (size new <> 0
      /\ exists answer rest count d w2,
        stdin w = answer :: rest
        /\ add_images (size new) db 0 0 (iter new) (started (size new) rest w)
           = (Ok (count, d), w2)
        /\ w' = written d count w2).
Proof.
  intros Hdb H new. unfold main, main_with in H.
  apply bind_ok in H. destruct H as (db0 & w0 & Hload & H).
  unfold get_database in Hload. rewrite Hdb in Hload.
  inversion Hload; subst db0 w0; clear Hload.
  apply bind_ok in H. destruct H as (images & w0 & Hscan & H).
  inversion Hscan; subst images w0; clear Hscan.
  cbv zeta in H. fold new in H.
  apply bind_ok in H. destruct H as (dup & w0 & Hcheck & H).
  unfold check_duplicate_images in Hcheck.
  rewrite check_loop_no_hashes in Hcheck.
  destruct (forallb _ _); [| discriminate].
  inversion Hcheck; subst dup w0; clear Hcheck.
  destruct (Nat.eqb_spec (size new) 0) as [Hzero | Hsome].
  { left. split; [exact Hzero |]. inversion H. reflexivity. }
  right.
  apply bind_ok in H. destruct H as (answer & wi & Hi & H).
  unfold input, rlinput in Hi.
  destruct (stdin w) as [| line rest] eqn:Hlines; [discriminate |].
  inversion Hi; subst answer wi; clear Hi.
  destruct (String.eqb_spec line "n") as [-> | Hyes].
  { left. split; [exact Hsome |]. exists rest. inversion H. auto. }
  right. split; [exact Hsome |].
  apply bind_ok in H. destruct H as ([count d] & w2 & Hadd & H).
  exists line, rest, count, d, w2. repeat split; [exact Hadd |].
  unfold bind, json_dump, print, emit in H. simpl in H.
  inversion H. unfold written. rewrite <- app_assoc. reflexivity.
Qed.

(** A run of [main] that ends with the report of a write. *)
Lemma main_wrote iter sha1 w db w' count :
  data_json w = Some db ->
  main iter sha1 w = (Ok tt, w') ->
  last (trace w') = Some (Print (Wrote count)) ->
  let new := new_images db (dom (images_dir w)) in
  exists answer rest d w2,
    stdin w = answer :: rest
    /\ add_images (size new) db 0 0 (iter new) (started (size new) rest w)
       = (Ok (count, d), w2)
    /\ images_dir w2 = images_dir w
    /\ w' = written d count w2.
Proof.
  intros Hdb Hrun Hlast new.
  destruct (main_returns iter sha1 w db w' Hdb Hrun)
    as [[_ ->] | [[_ (rest & _ & ->)]
                 | [_ (answer & rest & c & d & w2 & Hin & Hadd & ->)]]].
  - unfold printed in Hlast. simpl in Hlast. rewrite last_snoc in Hlast.
    discriminate.
  - unfold started in Hlast. simpl in Hlast. rewrite last_snoc in Hlast.
    discriminate.
  - unfold written in Hlast. simpl in Hlast.
    change [Dump d; Print (Wrote c)] with ([Dump d] ++ [Print (Wrote c)])%list
      in Hlast.
    rewrite app_assoc, last_snoc in Hlast. inversion Hlast; subst c.
    exists answer, rest, d, w2. repeat split; try assumption.
    apply add_images_images_dir in Hadd. exact Hadd.
Qed.

Lemma insert_sorted_perm kv : forall db, insert_sorted kv db ≡ₚ kv :: db.
Proof.
  induction db as [| kv' rest IH]; simpl; [reflexivity |].
  destruct (String.leb (fst kv) (fst kv')); [reflexivity |].
  rewrite IH. apply perm_swap.
Qed.

Lemma sort_keys_perm db : sort_keys db ≡ₚ db.
Proof.
  unfold sort_keys. induction db as [| kv rest IH]; simpl; [reflexivity |].
  rewrite insert_sorted_perm, IH. reflexivity.
Qed.

Lemma key_le_total a b : key_le a b \/ key_le b a.
Proof. apply String.leb_total. Qed.

Lemma insert_sorted_sorted kv : forall db,
  Sorted key_le db -> Sorted key_le (insert_sorted kv db).
Proof.
  induction db as [| kv' rest IH]; intros Hs; simpl.
  - repeat constructor.
  - destruct (String.leb (fst kv) (fst kv')) eqn:Hle.
    + constructor; [exact Hs | constructor; exact Hle].
    + inversion Hs as [| x l Hrest Hhd]; subst x l.
      constructor; [apply IH, Hrest |].
      assert (Hkv : key_le kv' kv).
      { destruct (key_le_total kv kv') as [H | H]; [| exact H].
        unfold key_le in H. congruence. }
      destruct rest as [| kv'' rest]; simpl.
      * constructor. exact Hkv.
      * destruct (String.leb (fst kv) (fst kv'')); constructor;
          [exact Hkv |]. inversion Hhd. assumption.
Qed.

Lemma sort_keys_sorted db : Sorted key_le (sort_keys db).
Proof.
  unfold sort_keys. induction db as [| kv rest IH]; simpl.
  - constructor.
  - apply insert_sorted_sorted, IH.
Qed.

Lemma get_db_set_perm db db' : db ≡ₚ db' -> get_db_set db = get_db_set db'.
Proof.
  intros Hp. apply set_eq. intros x. rewrite !elem_of_get_db_set.
  split; intros (k & o & e & Hin & He & ->); exists k, o, e;
    (split; [| auto]).
  - eapply Permutation_in; [exact Hp | exact Hin].
  - eapply Permutation_in; [symmetry; exact Hp | exact Hin].
Qed.

(** X17: a run that ends with the report "Wrote ... new entries" has,
    just before the report, written the catalogue it held in memory, that
    is the catalogue the loop over the new images returned: the write is of
    that catalogue, and [data.json] then holds its entries, each once, in
    the ascending order of their keys, whatever the order in which the
    catalogue was loaded and the entries were added. *)
Theorem written_catalogue_sorted (iter : gset string -> list string)
    (sha1 : string -> string) (w w' : world) (db : database) (count : nat) :
  data_json w = Some db ->
  main iter sha1 w = (Ok tt, w') ->
  last (trace w') = Some (Print (Wrote count)) ->
  let new := new_images db (dom (images_dir w)) in
  exists answer rest d w2 d',
    stdin w = answer :: rest
    /\ add_images (size new) db 0 0 (iter new) (started (size new) rest w)
       = (Ok (count, d), w2)
    /\ trace w' = (trace w2 ++ [Dump d; Print (Wrote count)])%list
    /\ data_json w' = Some d'
    /\ d' ≡ₚ d
    /\ Sorted key_le d'.
Proof.
  intros Hdb Hrun Hlast new.
  destruct (main_wrote iter sha1 w db w' count Hdb Hrun Hlast)
    as (answer & rest & d & w2 & Hin & Hadd & _ & ->).
  exists answer, rest, d, w2, (sort_keys d).
  split; [exact Hin |]. split; [exact Hadd |].
  split; [reflexivity |]. split; [reflexivity |].
  split; [apply sort_keys_perm | apply sort_keys_sorted].
Qed.

Lemma written_catalogue_sorted_witness :
  let w := two_new_world in
  let w' := snd (main backwards plain_digest w) in
  let new := new_images [] (dom (images_dir w)) in
  main backwards plain_digest w = (Ok tt, w')
  /\ last (trace w') = Some (Print (Wrote 2))
  /\ exists answer rest d w2 d',
       stdin w = answer :: rest
       /\ add_images (size new) [] 0 0 (backwards new)
                     (started (size new) rest w)
          = (Ok (2, d), w2)
       /\ trace w' = (trace w2 ++ [Dump d; Print (Wrote 2)])%list
       /\ data_json w' = Some d'
       /\ d' ≡ₚ d
       /\ Sorted key_le d'.
Proof.
  intros w w' new.
  assert (Hrun : main backwards plain_digest w = (Ok tt, w'))
    by (vm_compute; reflexivity).
  assert (Hlast : last (trace w') = Some (Print (Wrote 2)))
    by (vm_compute; reflexivity).
  split; [exact Hrun |]. split; [exact Hlast |].
  exact (written_catalogue_sorted backwards plain_digest w w' []
           2 eq_refl Hrun Hlast).
Defined.

(** *** What a run adds *)

Lemma add_images_accounting n images : forall db i count w count' db' w',
  NoDup images ->
  (forall image, image ∈ images -> image ∉ get_db_set db) ->
  add_images n db i count images w = (Ok (count', db'), w') ->
  exists acc,
    NoDup acc /\ (forall x, x ∈ acc -> x ∈ images)
    /\ get_db_set db' = get_db_set db ∪ list_to_set acc
    /\ count' = count + List.length acc.
Proof.
  induction images as [| image rest IH];
    intros db i count w count' db' w' Hnd Hnew H; simpl in H.
  - inversion H; subst. exists [].
    split; [constructor |]. split; [auto |]. split; [| simpl; lia].
    simpl. apply set_eq. intros x. rewrite elem_of_union.
    split; [auto | intros [Hx | Hx]; [exact Hx |]].
    exfalso. revert Hx. apply not_elem_of_empty.
  - apply bind_ok in H. destruct H as ([added db1] & w1 & Hadd & H).
    apply NoDup_cons in Hnd. destruct Hnd as [Hfresh Hnd].
    apply add_image_step, add_step_expansion in Hadd.
    destruct Hadd as [[-> ->] | [-> Hset]].
    + destruct (IH _ _ _ _ _ _ _ Hnd
                  (fun x Hx => Hnew x (list_elem_of_further _ _ _ Hx)) H)
        as (acc & Hacc & Hsub & Hexp & Hcount).
      exists acc. split; [exact Hacc |]. split; [| split; [exact Hexp | lia]].
      intros x Hx. right. apply Hsub, Hx.
    + assert (Hnew1 : forall x, x ∈ rest -> x ∉ get_db_set db1).
      { intros x Hx. rewrite Hset, elem_of_union, elem_of_singleton.
        intros [Hin | ->].
        - exact (Hnew x (list_elem_of_further _ _ _ Hx) Hin).
        - exact (Hfresh Hx). }
      destruct (IH _ _ _ _ _ _ _ Hnd Hnew1 H)
        as (acc & Hacc & Hsub & Hexp & Hcount).
      exists (image :: acc). split; [| split; [| split]].
      * apply NoDup_cons. split; [| exact Hacc].
        intros Hin. apply Hfresh, Hsub, Hin.
      * intros x Hx. apply elem_of_cons in Hx. destruct Hx as [-> | Hx].
        -- left.
        -- right. apply Hsub, Hx.
      * rewrite Hexp, Hset, list_to_set_cons. apply set_eq. intros x.
        rewrite !elem_of_union. tauto.
      * simpl. lia.
Qed.

Section Accounting.

Context (iter : gset string -> list string) (sha1 : string -> string).
Hypothesis Hiter : forall X : gset string, iter X ≡ₚ elements X.

Lemma iter_NoDup X : NoDup (iter X).
Proof. rewrite (Hiter X). apply NoDup_elements. Qed.

Lemma elem_of_iter x X : x ∈ iter X <-> x ∈ X.
Proof. rewrite (Hiter X). apply elem_of_elements. Qed.

(** In a run that reports [count] additions, the catalogue written stands
    for the files of the catalogue loaded and for [count] of the new
    images. *)
Lemma main_accounting w db w' count :
  data_json w = Some db ->
  main iter sha1 w = (Ok tt, w') ->
  last (trace w') = Some (Print (Wrote count)) ->
  exists d (acc : gset string),
    data_json w' = Some (sort_keys d)
    /\ images_dir w' = images_dir w
    /\ acc ⊆ new_images db (dom (images_dir w))
    /\ size acc = count
    /\ get_db_set (sort_keys d) = get_db_set db ∪ acc.
Proof.
  intros Hdb Hrun Hlast.
  destruct (main_wrote iter sha1 w db w' count Hdb Hrun Hlast)
    as (answer & rest & d & w2 & _ & Hadd & Hdir & ->).
  set (new := new_images db (dom (images_dir w))) in *.
  destruct (add_images_accounting _ _ _ _ _ _ _ _ _ (iter_NoDup new)
              (fun x Hx => proj2 (proj1 (elem_of_difference _ _ _)
                                    (proj1 (elem_of_iter x new) Hx)))
              Hadd)
    as (acc & Hacc & Hsub & Hexp & Hcount).
  exists d, (list_to_set acc). repeat split.
  - exact Hdir.
  - intros x Hx. apply elem_of_list_to_set in Hx.
    apply elem_of_iter, Hsub, Hx.
  - rewrite size_list_to_set by exact Hacc. simpl in Hcount. lia.
  - rewrite (get_db_set_perm _ _ (sort_keys_perm d)). exact Hexp.
Qed.

End Accounting.

(** X18: the number in the report "Wrote ... new entries" is the number of
    files the run added to those the catalogue stands for (a new extension
    of a known entry counts as much as a new entry).  It is at most the
    number of new images; the catalogue written stands for every file the
    catalogue loaded stood for, and for no file that is neither one of
    those nor in [images/]. *)
Theorem wrote_counts_files (iter : gset string -> list string)
    (sha1 : string -> string) (w w' : world) (db : database) (count : nat) :
  (forall X : gset string, iter X ≡ₚ elements X) ->
  data_json w = Some db ->
  main iter sha1 w = (Ok tt, w') ->
  last (trace w') = Some (Print (Wrote count)) ->
  exists d',
    data_json w' = Some d'
    /\ size (get_db_set d') = size (get_db_set db) + count
    /\ count <= size (new_images db (dom (images_dir w)))
    /\ get_db_set db ⊆ get_db_set d'
    /\ get_db_set d' ⊆ get_db_set db ∪ dom (images_dir w).
Proof.
  intros Hiter Hdb Hrun Hlast.
  destruct (main_accounting iter sha1 Hiter w db w' count Hdb Hrun Hlast)
    as (d & acc & Hdj & _ & Hsub & Hsize & Hexp).
  exists (sort_keys d). split; [exact Hdj |]. rewrite Hexp.
  split; [| split; [| split]].
  - rewrite size_union, Hsize; [reflexivity |].
    intros x Hx Hacc. apply Hsub in Hacc. unfold new_images in Hacc.
    apply elem_of_difference in Hacc. destruct Hacc as [_ Hacc].
    exact (Hacc Hx).
  - rewrite <- Hsize. apply subseteq_size, Hsub.
  - apply union_subseteq_l.
  - intros x Hx. apply elem_of_union in Hx. apply elem_of_union.
    destruct Hx as [Hx | Hx]; [left; exact Hx | right].
    apply Hsub in Hx. unfold new_images in Hx.
    apply elem_of_difference in Hx. tauto.
Qed.

Lemma wrote_counts_files_witness :
  let w := photo_png_world in
  let w' := snd (main elements plain_digest w) in
  main elements plain_digest w = (Ok tt, w')
  /\ last (trace w') = Some (Print (Wrote 1))
  /\ exists d',
       data_json w' = Some d'
       /\ size (get_db_set d') = size (get_db_set photo_db) + 1
       /\ 1 <= size (new_images photo_db (dom (images_dir w)))
       /\ get_db_set photo_db ⊆ get_db_set d'
       /\ get_db_set d' ⊆ get_db_set photo_db ∪ dom (images_dir w).
Proof.
  intros w w'.
  assert (Hrun : main elements plain_digest w = (Ok tt, w'))
    by (vm_compute; reflexivity).
  assert (Hlast : last (trace w') = Some (Print (Wrote 1)))
    by (vm_compute; reflexivity).
  split; [exact Hrun |]. split; [exact Hlast |].
  exact (wrote_counts_files elements plain_digest w w' photo_db 1
           (fun X => reflexivity (elements X)) eq_refl Hrun Hlast).
Defined.



(** *** Runs that add nothing *)







